(** * Chord sheets: transposition of chord tokens and the custom chord types

    A shallow embedding of the two pieces of the plugin that carry its
    chord logic:

    - [transpose] of [src/main.ts]: the loop that turns the chord tokens of
      a block into the list of text changes handed to the editor;
    - [extendChordType], [customChordTypes] and [addCustomChordTypes] of the
      custom chord type module.

    Strings are Rocq strings (bytes); the only character the code inspects
    is the ASCII slash, so splitting bytes and splitting UTF-16 code units
    cut a chord name at the same places.  Offsets are integers ([Z]). *)

From Stdlib Require Import ZArith Lia Ascii Sorted.
From stdpp Require Import base option list strings gmap fin_maps.

(** ** JavaScript string primitives used by [transpose] *)

Module JS.

(** [s.includes(c)] for a one-character needle. *)
Fixpoint includes (c : ascii) (s : string) : bool :=
  match s with
  | EmptyString => false
  | String a s' => if Ascii.eqb a c then true else includes c s'
  end.

(** [s.split(c)] for a one-character separator: the pieces between the
    separators, in order; a string without separator is its own single
    piece, and the empty string splits into one empty piece. *)
Fixpoint split (c : ascii) (s : string) : list string :=
  match s with
  | EmptyString => [EmptyString]
  | String a s' =>
      if Ascii.eqb a c then EmptyString :: split c s'
      else match split c s' with
           | [] => [String a EmptyString]
           | piece :: pieces => String a piece :: pieces
           end
  end.

(** [pieces.join(c)]: the pieces with the separator between them. *)
Fixpoint join (c : ascii) (pieces : list string) : string :=
  match pieces with
  | [] => EmptyString
  | [piece] => piece
  | piece :: pieces' => piece +:+ String c (join c pieces')
  end.

(** How often a character occurs in a string. *)
Fixpoint count (c : ascii) (s : string) : nat :=
  match s with
  | EmptyString => 0
  | String a s' => (if Ascii.eqb a c then 1 else 0) + count c s'
  end.

(** Truthiness of a string: every string but the empty one. *)
Definition truthy_string (s : string) : bool :=
  match s with
  | EmptyString => false
  | String _ _ => true
  end.

End JS.

(** ** Data of [transpose] *)

Inductive Direction := up | down.

(** [ChordToken] of [chordsUtils]; [transpose] reads its [value] only. *)
Record ChordToken := { value : string }.

Record ChordTokenRange := {
  from : Z;
  to : Z;
  chordToken : ChordToken
}.

(** A [ChangeSpec] of the editor, in the one shape [transpose] builds:
    replace the text of [[change_from, change_to)] by [change_insert]. *)
Record ChangeSpec := {
  change_from : Z;
  change_to : Z;
  change_insert : string
}.

(** The source span [[start, end)] of a token range and of a change. *)
Definition range_span (r : ChordTokenRange) : Z * Z := (from r, to r).
Definition change_span (c : ChangeSpec) : Z * Z := (change_from c, change_to c).

(** One span lies before another: it starts no later, and it ends where
    the other starts or earlier. *)
Definition before (a b : Z * Z) : Prop := (a.1 <= b.1 /\ a.2 <= b.1)%Z.

(** Spans in ascending order of their start, no two overlapping. *)
Definition ordered_disjoint (spans : list (Z * Z)) : Prop :=
  StronglySorted before spans.

(** ** [transpose] *)

Section Transpose.

(** [Chord.tokenize] of the tonal library: a chord name cut into its
    tonic and its type.  The second component is optional in the code
    ([chordType ?? ""]). *)
Variable Chord_tokenize : string -> string * option string.

(** [transposeTonic] of [chordsUtils]: a tonic moved one semitone. *)
Variable transposeTonic : string -> Direction -> string.

(** The body of the loop: the string that replaces one chord token. *)
Definition transposedChord (chordToken : ChordToken) (direction : Direction) : string :=
  let '(chordTonic, chordType) := Chord_tokenize (value chordToken) in
  let simplifiedTonic := transposeTonic chordTonic direction in
  match chordType with
  | Some type =>
      if JS.truthy_string type && JS.includes "/" type then
        match JS.split "/" type with
        | slashChordType :: afterSlash :: _ =>
            simplifiedTonic +:+ slashChordType +:+ "/" +:+ transposeTonic afterSlash direction
        | _ =>
            (* not reached: a string that includes the slash splits into
               two pieces at least, see [split_includes] *)
            simplifiedTonic +:+ type
        end
      else simplifiedTonic +:+ type
  | None => simplifiedTonic +:+ ""
  end.

(** The change the loop pushes for one chord token range. *)
Definition change_of (direction : Direction) (chordTokenRange : ChordTokenRange) : ChangeSpec :=
  {| change_from := from chordTokenRange;
     change_to := to chordTokenRange;
     change_insert := transposedChord (chordToken chordTokenRange) direction |}.

(** The loop: one change pushed per chord token range.  The result is the
    array [changes] as it is passed to [applyChanges]. *)
Definition transpose (chordTokenRanges : list ChordTokenRange) (direction : Direction)
  : list ChangeSpec :=
  fold_left
    (fun changes chordTokenRange =>
       changes ++ [change_of direction chordTokenRange])
    chordTokenRanges [].

End Transpose.

(** Two chord token ranges of one line, ["C"] at offsets 0 to 1 and
    ["G/B"] at offsets 2 to 5. *)
Definition two_ranges : list ChordTokenRange :=
  [ {| from := 0; to := 1; chordToken := {| value := "C" |} |};
    {| from := 2; to := 5; chordToken := {| value := "G/B" |} |} ].

(** A slash chord whose bass is no note, between the two. *)
Definition three_ranges : list ChordTokenRange :=
  [ {| from := 0; to := 1; chordToken := {| value := "C" |} |};
    {| from := 2; to := 9; chordToken := {| value := "Am7/xyz" |} |};
    {| from := 10; to := 13; chordToken := {| value := "G/B" |} |} ].

(** ** The collaborators of [transpose] that are not part of the sources *)

Module Model.

(** A tonic is a root letter [A]..[G] followed by sharps and flats. *)
Definition is_root_letter (c : ascii) : bool :=
  match c with
  | "A" | "B" | "C" | "D" | "E" | "F" | "G" => true
  | _ => false
  end%char.

Definition is_accidental (c : ascii) : bool :=
  match c with
  | "#" | "b" => true
  | _ => false
  end%char.

(** The longest run of accidentals at the head of a string, and the rest. *)
Fixpoint span_accidentals (s : string) : string * string :=
  match s with
  | EmptyString => (EmptyString, EmptyString)
  | String c s' =>
      if is_accidental c then
        let '(accidentals, rest) := span_accidentals s' in
        (String c accidentals, rest)
      else (EmptyString, s)
  end.

(** Modelled from the spec: [Chord.tokenize] belongs to the tonal library,
    which is not among the sources.  The spec's step 1: the raw value is
    split into tonic and quality at the first character that is no part of
    the tonic; a tonic is a root letter with its accidentals.  A value that
    does not start with a root letter has no tonic and is all quality. *)
Definition Chord_tokenize (name : string) : string * option string :=
  match name with
  | EmptyString => (EmptyString, Some EmptyString)
  | String c s' =>
      if is_root_letter c then
        let '(accidentals, quality) := span_accidentals s' in
        (String c accidentals, Some quality)
      else (EmptyString, Some name)
  end.

(** Pitch classes are the integers modulo twelve, [C] being [0]. *)
Definition letter_pitch (c : ascii) : option Z :=
  match c with
  | "C" => Some 0
  | "D" => Some 2
  | "E" => Some 4
  | "F" => Some 5
  | "G" => Some 7
  | "A" => Some 9
  | "B" => Some 11
  | _ => None
  end%char%Z.

(** The shift of a run of accidentals: a sharp raises by one semitone, a
    flat lowers by one; [None] when another character occurs. *)
Fixpoint accidental_shift (s : string) : option Z :=
  match s with
  | EmptyString => Some 0%Z
  | String c s' =>
      match accidental_shift s' with
      | Some k =>
          match c with
          | "#" => Some (k + 1)
          | "b" => Some (k - 1)
          | _ => None
          end%char%Z
      | None => None
      end
  end.

(** The pitch class of a tonic; [None] for a string that is no tonic. *)
Definition pitchClass (tonic : string) : option Z :=
  match tonic with
  | EmptyString => None
  | String c accidentals =>
      match letter_pitch c, accidental_shift accidentals with
      | Some p, Some k => Some ((p + k) mod 12)%Z
      | _, _ => None
      end
  end.

Definition semitone (direction : Direction) : Z :=
  match direction with
  | up => 1
  | down => -1
  end.

Definition sharp_names : list string :=
  ["C"; "C#"; "D"; "D#"; "E"; "F"; "F#"; "G"; "G#"; "A"; "A#"; "B"].

Definition flat_names : list string :=
  ["C"; "Db"; "D"; "Eb"; "E"; "F"; "Gb"; "G"; "Ab"; "A"; "Bb"; "B"].

(** The simplest spelling of a pitch class: no accidental where a natural
    note exists, otherwise one sharp going up and one flat going down. *)
Definition spell (direction : Direction) (pc : Z) : string :=
  nth (Z.to_nat pc)
      (match direction with up => sharp_names | down => flat_names end)
      EmptyString.

(** Modelled from the spec: [transposeTonic] is defined in [chordsUtils],
    which is not among the sources.  The spec's step 2: the tonic moves by
    exactly one semitone in the given direction, in pitch-class arithmetic
    modulo twelve, and is spelled again in the simplest enharmonic form,
    with sharps going up and flats going down.  A string that is no
    recognizable tonic is passed through verbatim (the spec's malformed
    slash chord rule). *)
Definition transposeTonic (tonic : string) (direction : Direction) : string :=
  match pitchClass tonic with
  | Some pc => spell direction ((pc + semitone direction) mod 12)%Z
  | None => tonic
  end.

(** The tonic of a chord token, as [Chord_tokenize] reads it. *)
Definition tonicOf (chordToken : ChordToken) : string :=
  (Chord_tokenize (value chordToken)).1.

(** One chord token transposed, with the two collaborators above. *)
Definition transposeToken (chordToken : ChordToken) (direction : Direction) : ChordToken :=
  {| value := transposedChord Chord_tokenize transposeTonic chordToken direction |}.

(** A string starts with a sharp or a flat. *)
Definition starts_with_accidental (s : string) : bool :=
  match s with
  | EmptyString => false
  | String c _ => is_accidental c
  end.

End Model.

(** ** JavaScript values and objects of the custom chord type module *)

(** The values that occur in a chord type: flags, numbers, strings and
    arrays of strings. *)
Inductive JSValue :=
  | VUndefined
  | VBool (b : bool)
  | VNum (n : Z)
  | VStr (s : string)
  | VArr (items : list string).

(** An object is a finite map from property names to values; a property
    that is absent reads as [undefined]. *)
Abbreviation object := (gmap string JSValue).

(** What the module can throw: the [Error] of [extendChordType], and the
    [TypeError] of spreading something that is not iterable. *)
Inductive exn :=
  | Error (message : string)
  | TypeError.

Definition result (A : Type) : Type := exn + A.

Definition throw {A : Type} (e : exn) : result A := inl e.

Definition and_then {A B : Type} (m : result A) (k : A -> result B) : result B :=
  match m with
  | inl e => inl e
  | inr a => k a
  end.

Notation "'try' x := m 'in' k" := (and_then m (fun x => k))
  (at level 10, x name, m at level 100, k at level 200, only parsing).

(** The value of a property read, [None] being the absent property. *)
Definition truthy (v : option JSValue) : bool :=
  match v with
  | None | Some VUndefined => false
  | Some (VBool b) => b
  | Some (VNum n) => negb (n =? 0)%Z
  | Some (VStr s) => JS.truthy_string s
  | Some (VArr _) => true
  end.

(** [a || b] *)
Definition or_else (a : option JSValue) (b : JSValue) : JSValue :=
  if truthy a then default VUndefined a else b.

(** The characters of a string, each as a string of its own. *)
Fixpoint characters (s : string) : list string :=
  match s with
  | EmptyString => []
  | String c s' => String c EmptyString :: characters s'
  end.

(** [...v] inside an array literal: the items of an array, the characters
    of a string; anything else is not iterable. *)
Definition spread (v : JSValue) : result (list string) :=
  match v with
  | VArr items => inr items
  | VStr s => inr (characters s)
  | _ => throw TypeError
  end.

(** The aliases an extension brings, when its [aliases] is what the type
    [Partial<CustomChordType>] allows: absent, [undefined], or an array. *)
Definition extension_aliases (extension : object) : option (list string) :=
  match extension !! "aliases" with
  | None | Some VUndefined => Some []
  | Some (VArr items) => Some items
  | Some _ => None
  end.

(** ** The custom chord types *)

Section Registry.

(** The chord-symbol table of the tonal library, with the two functions
    of [ChordType] the module calls.  [ChordType.get] answers every name;
    for a name it does not know, the chord type it returns has its
    [empty] flag set. *)
Variable table : Type.
Variable ChordType_get : table -> string -> object.
Variable ChordType_add : option JSValue -> option JSValue -> option JSValue -> table -> table.

(** The test of [extendChordType]: the base type was not found. *)
Definition not_found (t : table) (type : string) : bool :=
  truthy (ChordType_get t type !! "empty").

Definition not_found_message (type : string) : string :=
  "Error while extending chord type: chord type " +:+ type +:+ " not found.".

Definition extendChordType (t : table) (type : string) (chordTypeExtension : object)
  : result object :=
  let originalChordType := ChordType_get t type in
  if truthy (originalChordType !! "empty") then
    throw (Error (not_found_message type))
  else
    try originalAliases := spread (default VUndefined (originalChordType !! "aliases")) in
    try extensionAliases := spread (or_else (chordTypeExtension !! "aliases") (VArr [])) in
    let mergedAliases := originalAliases ++ extensionAliases in
    inr (<["aliases" := VArr mergedAliases]> (chordTypeExtension ∪ originalChordType)).

Definition suspendedFourSharpFive : object :=
  {[ "name" := VStr "suspended four sharp five";
     "intervals" := VArr ["1P"; "4P"; "5A"];
     "aliases" := VArr ["sus4#5"; "4(5+)"] ]}.

(** The module constant, evaluated once when the module is loaded, its
    elements in order; the first throw ends the evaluation. *)
Definition customChordTypes (t : table) : result (list object) :=
  try augmentedSeventh := extendChordType t "7#5" {[ "aliases" := VArr ["7(5+)"; "7(+5)"; "7+5"] ]} in
  try majorSeventh := extendChordType t "M7" {[ "aliases" := VArr ["7M"] ]} in
  try minorNinth := extendChordType t "m9" {[ "aliases" := VArr ["m7(9)"] ]} in
  inr [augmentedSeventh; majorSeventh; minorNinth; suspendedFourSharpFive].

(** [addCustomChordTypes], over the module constant it iterates. *)
Definition addCustomChordTypes (customChordTypes : list object) (t : table) : table :=
  fold_left
    (fun t chordType =>
       ChordType_add (chordType !! "intervals") (chordType !! "aliases") (chordType !! "name") t)
    customChordTypes t.

(** Loading the module and then calling its export, which is the only
    way to reach [addCustomChordTypes]: an exception of the module body
    leaves the export uncalled.  The result is the exception, if any,
    and the table afterwards. *)
Definition loadAndAdd (t : table) : option exn * table :=
  match customChordTypes t with
  | inl e => (Some e, t)
  | inr chordTypes => (None, addCustomChordTypes chordTypes t)
  end.

End Registry.

(** ** The chord-symbol table *)

Module Tonal.

(** tonal's interval shorthand: the degree, then the quality. *)
Inductive IntervalQuality := Perfect | Major | Minor | Augmented | Diminished.

Definition interval (degree : nat) (quality : IntervalQuality) : string :=
  String (ascii_of_nat (48 + degree))
    (match quality with
     | Perfect => "P"
     | Major => "M"
     | Minor => "m"
     | Augmented => "A"
     | Diminished => "d"
     end).

(** The chord type [ChordType.get] returns for an unknown name. *)
Definition NoChordType : object :=
  {[ "empty" := VBool true;
     "name" := VStr "";
     "intervals" := VArr [];
     "aliases" := VArr [] ]}.

(** Modelled from the spec: the chord-symbol table and [ChordType.get] of
    the tonal library are not among the sources.  The spec's glossary: the
    table maps names and aliases to chord types; a lookup that finds
    nothing is answered by the empty chord type. *)
Definition ChordType_get (t : gmap string object) (type : string) : object :=
  default NoChordType (t !! type).

(** The names a chord type is registered under: its name, when it has one,
    and its aliases. *)
Definition chord_keys (aliases name : option JSValue) : list string :=
  match name with
  | Some (VStr n) => if JS.truthy_string n then [n] else []
  | _ => []
  end ++
  match aliases with
  | Some (VArr items) => items
  | _ => []
  end.

Definition chord_entry (intervals aliases name : option JSValue) : object :=
  {[ "empty" := VBool false;
     "name" := default VUndefined name;
     "intervals" := default VUndefined intervals;
     "aliases" := default VUndefined aliases ]}.

(** Modelled from the spec: [ChordType.add] of the tonal library is not
    among the sources.  The spec: the chord type, given by its intervals,
    aliases and name, is registered into the table used by all lookups;
    a lookup by the name or by any alias resolves to it.  A key that is
    already bound is bound anew. *)
Definition ChordType_add (intervals aliases name : option JSValue) (t : gmap string object)
  : gmap string object :=
  fold_left (fun t key => <[key := chord_entry intervals aliases name]> t)
            (chord_keys aliases name) t.

(** A small table: the three base types the module constant extends. *)
Definition base_table : gmap string object :=
  ChordType_add (Some (VArr ["1P"; "3m"; "5P"; "7m"; "9M"])) (Some (VArr ["m9"; "-9"]))
    (Some (VStr "minor ninth"))
    (ChordType_add (Some (VArr ["1P"; "3M"; "5P"; "7M"])) (Some (VArr ["maj7"; "M7"]))
       (Some (VStr "major seventh"))
       (ChordType_add (Some (VArr ["1P"; "3M"; "5A"; "7m"])) (Some (VArr ["7#5"; "+7"]))
          (Some (VStr "")) ∅)).

(** The bindings one chord type is registered with: each of its keys, bound
    to the entry made of its intervals, aliases and name. *)
Definition chord_writes (chordType : object) : list (string * object) :=
  (fun key =>
     (key, chord_entry (chordType !! "intervals") (chordType !! "aliases") (chordType !! "name")))
  <$> chord_keys (chordType !! "aliases") (chordType !! "name").

End Tonal.

(** * The rest of the plugin *)

(** ** More JavaScript string primitives *)

Module Str.

(** [s.startsWith(prefix)] *)
Fixpoint startsWith (s prefix : string) : bool :=
  match prefix, s with
  | EmptyString, _ => true
  | String _ _, EmptyString => false
  | String b prefix', String a s' => Ascii.eqb a b && startsWith s' prefix'
  end.

(** [s.substring(start)]: the string from index [start] on, empty when the
    string is shorter. *)
Fixpoint substring (start : nat) (s : string) : string :=
  match start, s with
  | O, _ => s
  | S _, EmptyString => EmptyString
  | S start', String _ s' => substring start' s'
  end.

End Str.

(** ** The reading-mode post processor *)

(** The settings the functions of [main.ts] read. *)
Record ChordSheetsSettings := {
  defaultInstrument : string;
  showChordOverview : string;
  showChordDiagramsOnHover : string;
  diagramWidth : Z;
  showAutoscrollButton : string;
  autoscrollDefaultSpeed : Z
}.

(** [langClass]: the first class of the code block that starts with
    ["language-chords"], without its first nine characters. *)
Definition langClassOf (classList : list string) : option string :=
  Str.substring 9 <$> List.find (fun cls => Str.startsWith cls "language-chords") classList.

(** [instrument]: the second piece of [langClass] split at dashes; the
    default instrument when there is no second piece. *)
Definition instrumentOf (settings : ChordSheetsSettings) (langClass : string) : string :=
  match JS.split "-" langClass with
  | _ :: instrumentString :: _ => instrumentString
  | _ => defaultInstrument settings
  end.

Section PostProcessor.

(** The elements of the rendered document. *)
Variable Element : Type.

(** A [code] element selected by the post processor: its classes, in
    order, and its parent. *)
Record CodeBlock := {
  classList : list string;
  parentElement : Element
}.

(** The arguments a [ChordBlockPostProcessorView] is constructed with. *)
Record ChordBlockView := {
  view_container : Element;
  view_instrument : string;
  view_overview : bool;
  view_diagrams : bool;
  view_width : Z
}.

Definition newChordBlockView (settings : ChordSheetsSettings) (codeblock : CodeBlock)
    (langClass : string) : ChordBlockView :=
  {| view_container := parentElement codeblock;
     view_instrument := instrumentOf settings langClass;
     view_overview :=
       String.eqb (showChordOverview settings) "always"
       || String.eqb (showChordOverview settings) "preview";
     view_diagrams :=
       String.eqb (showChordDiagramsOnHover settings) "always"
       || String.eqb (showChordDiagramsOnHover settings) "preview";
     view_width := diagramWidth settings |}.

(** The loop of the post processor over the selected code blocks: the
    children added to the context, in the order they are added. *)
Definition postProcessor (settings : ChordSheetsSettings) (codeblocks : list CodeBlock)
  : list ChordBlockView :=
  fold_left
    (fun children codeblock =>
       match langClassOf (classList codeblock) with
       | Some langClass =>
           if JS.truthy_string langClass
           then children ++ [newChordBlockView settings codeblock langClass]
           else children
       | None => children
       end)
    codeblocks [].

(** The child of a code block that has a [langClass]. *)
Definition child_of (settings : ChordSheetsSettings) (codeblock : CodeBlock)
  : option ChordBlockView :=
  newChordBlockView settings codeblock <$> langClassOf (classList codeblock).

End PostProcessor.

Arguments classList {Element} _.
Arguments parentElement {Element} _.
Arguments view_container {Element} _.
Arguments view_instrument {Element} _.
Arguments newChordBlockView {Element} _ _ _.
Arguments postProcessor {Element} _ _.

(** ** [changeInstrument] *)

(** The line of the editor is a string of UTF-16 code units: the regular
    expression classifies code units, and [length] counts them. *)
Abbreviation ustring := (list N).

(** The code units of a text of ASCII characters. *)
Fixpoint units (s : string) : ustring :=
  match s with
  | EmptyString => []
  | String a s' => N_of_ascii a :: units s'
  end.

Module Regex.

Local Open Scope N_scope.

(** [\w]: letters, digits and the underscore of ASCII. *)
Definition is_word (u : N) : bool :=
  ((48 <=? u) && (u <=? 57)) || ((65 <=? u) && (u <=? 90))
  || (u =? 95) || ((97 <=? u) && (u <=? 122)).

(** [\s]: the white space and line terminator code points. *)
Definition is_space (u : N) : bool :=
  ((9 <=? u) && (u <=? 13)) || (u =? 32) || (u =? 160) || (u =? 5760)
  || ((8192 <=? u) && (u <=? 8202)) || (u =? 8232) || (u =? 8233)
  || (u =? 8239) || (u =? 8287) || (u =? 12288) || (u =? 65279).

(** [\S] *)
Definition non_space (u : N) : bool := negb (is_space u).

(** The longest run of code units of a class at the head of a string:
    what a greedy [+] takes first. *)
Fixpoint run (class : N -> bool) (s : ustring) : nat :=
  match s with
  | [] => O
  | u :: s' => if class u then S (run class s') else O
  end.

(** [\S+] at the head of a string: the length it matches. *)
Definition match_non_space (s : ustring) : option nat :=
  match run non_space s with
  | O => None
  | S m => Some (S m)
  end.

(** [\w+\S+] at the head of a string, [\w+] holding [k] code units: when
    [\S+] fails behind them, [\w+] gives one back and [\S+] is tried
    again; [\w+] keeps one code unit at least. *)
Fixpoint backtrack (k : nat) (s : ustring) : option nat :=
  match k with
  | O => None
  | S k' =>
      match match_non_space (drop k s) with
      | Some m => Some (k + m)%nat
      | None => backtrack k' s
      end
  end.

(** [\w+\S+] at the head of a string: [\w+] starts with its longest run. *)
Definition match_here (s : ustring) : option nat :=
  backtrack (run is_word s) s.

(** The first match of [/\w+\S+/] in a string: its start and its length,
    the start positions tried from the left. *)
Fixpoint search (s : ustring) : option (nat * nat) :=
  match match_here s with
  | Some len => Some (O, len)
  | None =>
      match s with
      | [] => None
      | _ :: s' =>
          match search s' with
          | Some (start, len) => Some (S start, len)
          | None => None
          end
      end
  end.

(** The replacement text of [replace] for a pattern without capture
    groups: [$$] is a dollar sign, [$&] the match, [$`] the text before
    the match, [$'] the text after it; any other dollar sign stands for
    itself. *)
Fixpoint expand (replacement before matched after : ustring) : ustring :=
  match replacement with
  | [] => []
  | u :: rest =>
      if u =? 36 then
        match rest with
        | [] => [36]
        | v :: rest' =>
            if v =? 36 then 36 :: expand rest' before matched after
            else if v =? 38 then matched ++ expand rest' before matched after
            else if v =? 96 then before ++ expand rest' before matched after
            else if v =? 39 then after ++ expand rest' before matched after
            else 36 :: expand rest before matched after
        end
      else u :: expand rest before matched after
  end.

(** [s.replace(/\w+\S+/, replacement)]: the first match replaced, the
    string itself when nothing matches. *)
Definition replace (s replacement : ustring) : ustring :=
  match search s with
  | None => s
  | Some (start, len) =>
      let before := take start s in
      let matched := take len (drop start s) in
      let after := drop (start + len) s in
      before ++ expand replacement before matched after ++ after
  end.

(** A replacement without dollar sign. *)
Definition literal (replacement : ustring) : bool :=
  forallb (fun u => negb (u =? 36)) replacement.

(** A token: a word code unit, then one code unit or more, none of them
    white space. *)
Definition is_token (token : ustring) : bool :=
  match token with
  | u :: v :: token' => is_word u && forallb non_space (v :: token')
  | _ => false
  end.

(** What may follow a token: the end of the line, or white space. *)
Definition token_end (rest : ustring) : bool :=
  match rest with
  | [] => true
  | u :: _ => is_space u
  end.

(** No code unit of a text is a word code unit. *)
Definition no_word (fence : ustring) : bool :=
  forallb (fun u => negb (is_word u)) fence.

(** A word code unit followed by a code unit that is no white space, at
    the head of a string. *)
Definition token_start (s : ustring) : bool :=
  match s with
  | u :: v :: _ => is_word u && non_space v
  | _ => false
  end.

(** Somewhere in a string, a word code unit is followed by a code unit
    that is no white space. *)
Fixpoint has_token_start (s : ustring) : bool :=
  token_start s ||
  match s with
  | [] => false
  | _ :: s' => has_token_start s'
  end.

End Regex.

(** The change [changeInstrument] hands to [applyChanges]. *)
Record LineChange := {
  line_from : Z;
  line_to : Z;
  line_insert : ustring
}.

(** [newInstrumentDef]: the language specifier, followed by a dash and the
    instrument when one is selected. *)
Definition newInstrumentDef (languageSpecifier : ustring) (selectedInstrument : option ustring)
  : ustring :=
  match selectedInstrument with
  | None => languageSpecifier
  | Some instrument => languageSpecifier ++ units "-" ++ instrument
  end.

(** [changeInstrument].  [languageSpecifier] is the setting
    [blockLanguageSpecifier]; [activeView] is the active markdown view, if
    there is one, as the function of the editor that gives the line an
    offset lies in.  The result is the argument of [applyChanges]. *)
Definition changeInstrument (languageSpecifier : ustring) (selectedInstrument : option ustring)
    (activeView : option (Z -> ustring)) (blockStart : Z) : option (list LineChange) :=
  match activeView with
  | None => None
  | Some lineAt =>
      let startLine := lineAt blockStart in
      let newLine :=
        Regex.replace startLine (newInstrumentDef languageSpecifier selectedInstrument) in
      Some [ {| line_from := blockStart;
                line_to := blockStart + Z.of_nat (length startLine);
                line_insert := newLine |} ]
  end.


(** ** The editor commands *)

Section Commands.

(** A chord sheet block, as [getChordSheetBlockAtCursor] returns it, with
    its start offset. *)
Variable Block : Type.
Variable block_from : Block -> Z.

(** [changeInstrumentCommand].  [chordPlugin] is [None] when the editor has
    no chord sheets plugin; otherwise it holds what
    [getChordSheetBlockAtCursor] returns.  The result is the value the
    callback returns and the call of [changeInstrument] it makes, if any,
    by its instrument and block start. *)
Definition changeInstrumentCommand (chordPlugin : option (option Block)) (checking : bool)
    (instrument : option ustring) : bool * option (option ustring * Z) :=
  match chordPlugin with
  | Some chordSheetBlockAtCursor =>
      match chordSheetBlockAtCursor with
      | None => (false, None)
      | Some block =>
          (true, if checking then None else Some (instrument, block_from block))
      end
  | None => (true, None)
  end.

(** [transposeCommand]; the call it makes is the request for the chord
    tokens of the block, which are then transposed in the direction. *)
Definition transposeCommand (chordPlugin : option (option Block)) (checking : bool)
    (direction : Direction) : bool * option (Block * Direction) :=
  match chordPlugin with
  | Some chordSheetBlockAtCursor =>
      match chordSheetBlockAtCursor with
      | None => (false, None)
      | Some block => (true, if checking then None else Some (block, direction))
      end
  | None => (true, None)
  end.

End Commands.

(** ** Autoscroll *)

(** What [updateAutoscrollButton] does to the actions of a view. *)
Inductive ActionOp :=
  | RemoveExisting
  | AddAction (icon : string).

(** The autoscroll action of a view, if it has one, with its [data-icon]
    (absent on an element that was not given one).  A view holds one such
    element at most: [updateAutoscrollButton] is the only place that adds
    one, and it removes the one it finds before it does. *)
Abbreviation AutoscrollAction := (option (option string)).

(** The effect of the operations on the autoscroll action of the view: a
    removed element is gone; an added one carries the class and the icon
    as its [data-icon]. *)
Definition applyActionOp (existingEl : AutoscrollAction) (op : ActionOp) : AutoscrollAction :=
  match op with
  | RemoveExisting => None
  | AddAction icon => Some (Some icon)
  end.

Inductive SpeedAction := increase | decrease.

Section Autoscroll.

(** [AutoscrollControl] of [autoscrollControl], with the members
    [main.ts] uses; views are told apart by a number. *)
Variable AutoscrollControl : Type.
Variable isRunning : AutoscrollControl -> bool.
Variable start stop : AutoscrollControl -> AutoscrollControl.
Variable newAutoscrollControl : nat -> Z -> AutoscrollControl.

Implicit Types (viewAutoscrollControlMap : gmap nat AutoscrollControl) (view : nat).

(** [autoscrollControl?.isRunning], as a condition *)
Definition running (autoscrollControl : option AutoscrollControl) : bool :=
  match autoscrollControl with
  | Some control => isRunning control
  | None => false
  end.

(** [startAutoscroll] *)
Definition startAutoscroll (settings : ChordSheetsSettings) view viewAutoscrollControlMap
  : gmap nat AutoscrollControl :=
  let autoscrollControl :=
    default (newAutoscrollControl view (autoscrollDefaultSpeed settings))
            (viewAutoscrollControlMap !! view) in
  <[view := start autoscrollControl]> viewAutoscrollControlMap.

(** [shouldShowButton] and [icon] of [updateAutoscrollButton] *)
Definition shouldShowButton (settings : ChordSheetsSettings) (hasChordBlocks : bool) : bool :=
  String.eqb (showAutoscrollButton settings) "always"
  || (hasChordBlocks && String.eqb (showAutoscrollButton settings) "chord-blocks").

Definition autoscrollIcon (autoscrollControl : option AutoscrollControl) : string :=
  if running autoscrollControl then "pause-circle" else "play-circle".

(** [updateAutoscrollButton].  [plugin] is [None] when the editor has no
    chord sheets plugin, otherwise it holds what [hasChordBlocks] returns;
    [existingEl] is the element the query finds. *)
Definition updateAutoscrollButton (settings : ChordSheetsSettings) (plugin : option bool)
    (isMarkdownView : bool) view viewAutoscrollControlMap (existingEl : AutoscrollAction)
  : list ActionOp :=
  match plugin with
  | Some hasChordBlocks =>
      if isMarkdownView then
        if shouldShowButton settings hasChordBlocks then
          let icon := autoscrollIcon (viewAutoscrollControlMap !! view) in
          match existingEl with
          | None => [AddAction icon]
          | Some dataIcon =>
              if decide (dataIcon = Some icon) then []
              else [RemoveExisting; AddAction icon]
          end
        else
          match existingEl with
          | Some _ => [RemoveExisting]
          | None => []
          end
      else []
  | None => []
  end.

(** [toggleAutoscroll]: the map of controls afterwards, and what the
    update of the button does. *)
Definition toggleAutoscroll (settings : ChordSheetsSettings) (plugin : option bool)
    view viewAutoscrollControlMap (existingEl : AutoscrollAction)
  : gmap nat AutoscrollControl * list ActionOp :=
  let autoscrollControl := viewAutoscrollControlMap !! view in
  let controls :=
    match autoscrollControl with
    | Some control =>
        if isRunning control
        then <[view := stop control]> viewAutoscrollControlMap
        else startAutoscroll settings view viewAutoscrollControlMap
    | None => startAutoscroll settings view viewAutoscrollControlMap
    end in
  (controls, updateAutoscrollButton settings plugin true view controls existingEl).

(** [stopAllAutoscrolls], over the leaves of the workspace, each with its
    view and the type of its view. *)
Definition stopAllAutoscrolls (leaves : list (nat * string)) viewAutoscrollControlMap
  : gmap nat AutoscrollControl :=
  fold_left
    (fun controls leaf =>
       if String.eqb leaf.2 "markdown" then
         match controls !! leaf.1 with
         | Some control => <[leaf.1 := stop control]> controls
         | None => controls
         end
       else controls)
    leaves viewAutoscrollControlMap.

(** [adjustScrollSpeedCommand].  [view] is the active markdown view, if
    there is one.  The result is the value the callback returns and the
    speed method it calls, if any, on the control of the view. *)
Definition adjustScrollSpeedCommand (action : SpeedAction) (checking : bool)
    (view : option nat) viewAutoscrollControlMap : bool * option (nat * SpeedAction) :=
  match view with
  | None => (false, None)
  | Some view =>
      match viewAutoscrollControlMap !! view with
      | None => (false, None)
      | Some autoscrollControl =>
          if negb (isRunning autoscrollControl) then (false, None)
          else (true, if checking then None else Some (view, action))
      end
  end.

End Autoscroll.

(** ** Settings *)

(** [Object.assign(target, ...sources)]: the properties of each source
    copied over the target, a later source over an earlier one; a source
    that is [null] or [undefined] is skipped. *)
Definition Object_assign (target : object) (sources : list (option object)) : object :=
  fold_left
    (fun target source =>
       match source with
       | Some properties => properties ∪ target
       | None => target
       end)
    sources target.

(** [loadSettings]: the settings after it.  [DEFAULT_SETTINGS] is the
    constant of [chordSheetsSettings]; [data] is what [loadData] resolves
    to, [None] when nothing was stored. *)
Definition loadSettings (DEFAULT_SETTINGS : object) (data : option object) : object :=
  Object_assign ∅ [Some DEFAULT_SETTINGS; data].


(** ** Sample data *)

Module Sample.

Definition settings : ChordSheetsSettings :=
  {| defaultInstrument := "guitar";
     showChordOverview := "always";
     showChordDiagramsOnHover := "never";
     diagramWidth := 100;
     showAutoscrollButton := "chord-blocks";
     autoscrollDefaultSpeed := 2 |}.

(** A control that is its running flag and its speed. *)
Definition Control : Type := bool * Z.
Definition isRunning (control : Control) : bool := control.1.
Definition start (control : Control) : Control := (true, control.2).
Definition stop (control : Control) : Control := (false, control.2).
Definition newControl (view : nat) (speed : Z) : Control := (false, speed).

(** View 1 scrolls at speed 5, view 2 has a stopped control. *)
Definition controls : gmap nat Control := {[ 1%nat := (true, 5%Z); 2%nat := (false, 3%Z) ]}.

Definition leaves : list (nat * string) :=
  [ (1%nat, "markdown"); (7%nat, "file-explorer"); (2%nat, "markdown") ].

(** The first line of a guitar block, and of a block whose language is a
    single character. *)
Definition guitarLine : ustring := units "```chords-guitar".
Definition shortLine : ustring := units "```c".

End Sample.

(** * Properties *)

(** ** Splitting at a character *)

Section SplitFacts.

Variable c : ascii.

Lemma split_nonempty (s : string) : JS.split c s <> [].
Proof.
  destruct s as [|a s']; simpl; [discriminate|].
  destruct (Ascii.eqb a c); [discriminate|].
  destruct (JS.split c s'); discriminate.
Qed.

(** Joining the pieces gives the string back. *)
Lemma join_split (s : string) : JS.join c (JS.split c s) = s.
Proof.
  induction s as [|a s' IH]; simpl; [reflexivity|].
  destruct (Ascii.eqb_spec a c) as [->|Hne].
  - pose proof (split_nonempty s') as Hs.
    destruct (JS.split c s') as [|p ps]; [contradiction|].
    simpl in *. now rewrite IH.
  - destruct (JS.split c s') as [|p ps] eqn:E.
    + now apply split_nonempty in E.
    + rewrite <- IH. destruct ps; reflexivity.
Qed.

(** A string without separator is its own single piece. *)
Lemma split_free (s : string) : JS.includes c s = false -> JS.split c s = [s].
Proof.
  induction s as [|a s' IH]; simpl; [reflexivity|].
  destruct (Ascii.eqb a c); [discriminate|].
  intros H. now rewrite (IH H).
Qed.

Lemma split_first_piece (piece rest : string) :
  JS.includes c piece = false ->
  JS.split c (piece +:+ String c rest) = piece :: JS.split c rest.
Proof.
  induction piece as [|a piece' IH]; simpl.
  - intros _. now rewrite Ascii.eqb_refl.
  - destruct (Ascii.eqb a c); [discriminate|].
    intros H. now rewrite (IH H).
Qed.

(** Splitting is the inverse of joining pieces that are free of the
    separator: [split] returns exactly the pieces that were joined. *)
Lemma split_join (pieces : list string) :
  pieces <> [] ->
  Forall (fun piece => JS.includes c piece = false) pieces ->
  JS.split c (JS.join c pieces) = pieces.
Proof.
  induction pieces as [|piece pieces IH]; [congruence|].
  intros _ Hfree. inversion Hfree as [|? ? Hpiece Hrest]; subst.
  destruct pieces as [|next pieces].
  - simpl. now apply split_free.
  - change (JS.join c (piece :: next :: pieces))
      with (piece +:+ String c (JS.join c (next :: pieces))).
    rewrite split_first_piece by assumption.
    f_equal. now apply IH.
Qed.

(** No piece contains the separator. *)
Lemma split_pieces_free (s : string) :
  Forall (fun piece => JS.includes c piece = false) (JS.split c s).
Proof.
  induction s as [|a s' IH]; simpl.
  - repeat constructor.
  - destruct (Ascii.eqb a c) eqn:Hac.
    + constructor; [reflexivity | exact IH].
    + destruct (JS.split c s') as [|p ps].
      * constructor; [simpl; now rewrite Hac | constructor].
      * inversion IH; subst. constructor; [simpl; now rewrite Hac | assumption].
Qed.

(** There is one piece more than there are separators. *)
Lemma length_split (s : string) : length (JS.split c s) = S (JS.count c s).
Proof.
  induction s as [|a s' IH]; simpl; [reflexivity|].
  destruct (Ascii.eqb a c); simpl.
  - now rewrite IH.
  - destruct (JS.split c s'); simpl in *; [discriminate | exact IH].
Qed.

Lemma includes_count (s : string) : JS.includes c s = true <-> 0 < JS.count c s.
Proof.
  induction s as [|a s' IH]; simpl.
  - split; [discriminate | lia].
  - destruct (Ascii.eqb a c); simpl; [split; [lia | reflexivity] | exact IH].
Qed.

(** A string that includes the separator has two pieces at least. *)
Lemma split_includes (s : string) :
  JS.includes c s = true ->
  exists first second more, JS.split c s = first :: second :: more.
Proof.
  intros H. apply includes_count in H.
  pose proof (length_split s) as Hlen.
  destruct (JS.split c s) as [|p [|q r]]; simpl in Hlen; try lia.
  now exists p, q, r.
Qed.

Lemma split_two_separators (s : string) :
  2 <= JS.count c s ->
  exists first second third more, JS.split c s = first :: second :: third :: more.
Proof.
  intros H. pose proof (length_split s) as Hlen.
  destruct (JS.split c s) as [|p [|q [|r m]]]; simpl in Hlen; try lia.
  now exists p, q, r, m.
Qed.

Lemma includes_truthy (s : string) : JS.includes c s = true -> JS.truthy_string s = true.
Proof. now destruct s. Qed.

End SplitFacts.

(** ** [transpose]: one chord token *)

Section TransposeFacts.

Variable Chord_tokenize : string -> string * option string.
Variable transposeTonic : string -> Direction -> string.

Implicit Types (chordToken : ChordToken) (direction : Direction).

(** The slash branch, in terms of the pieces of the chord type. *)
Lemma transposedChord_pieces chordToken direction tonic type first second more :
  Chord_tokenize (value chordToken) = (tonic, Some type) ->
  JS.includes "/" type = true ->
  JS.split "/" type = first :: second :: more ->
  transposedChord Chord_tokenize transposeTonic chordToken direction
  = transposeTonic tonic direction +:+ first +:+ "/" +:+ transposeTonic second direction.
Proof.
  intros Htok Hinc Hsplit. unfold transposedChord.
  rewrite Htok, Hinc, (includes_truthy _ _ Hinc), Hsplit. reflexivity.
Qed.

(** C1.  A chord token whose quality contains a slash: the quality is
    split at its slashes, the first piece is the chord quality part and
    the second piece the bass note part; both pieces are free of slashes
    and the quality is these pieces (and any further ones) joined by
    slashes.  The tonic and the bass note part go through
    [transposeTonic] separately, in the same direction, and the result is
    the new tonic, the chord quality part, a slash and the new bass. *)
Theorem transpose_slash_chord chordToken direction tonic quality :
  Chord_tokenize (value chordToken) = (tonic, Some quality) ->
  JS.includes "/" quality = true ->
  exists chordQualityPart bassNotePart more,
    JS.split "/" quality = chordQualityPart :: bassNotePart :: more
    /\ quality = JS.join "/" (chordQualityPart :: bassNotePart :: more)
    /\ JS.includes "/" chordQualityPart = false
    /\ JS.includes "/" bassNotePart = false
    /\ transposedChord Chord_tokenize transposeTonic chordToken direction
       = transposeTonic tonic direction +:+ chordQualityPart +:+ "/"
         +:+ transposeTonic bassNotePart direction.
Proof.
  intros Htok Hinc.
  destruct (split_includes _ _ Hinc) as (q & b & more & Hsplit).
  pose proof (split_pieces_free "/" quality) as Hfree.
  rewrite Hsplit in Hfree.
  inversion Hfree as [|? ? Hq Hrest]; subst.
  inversion Hrest as [|? ? Hb _]; subst.
  exists q, b, more. repeat split; try assumption.
  - now rewrite <- Hsplit, join_split.
  - now apply transposedChord_pieces with (type := quality) (more := more).
Qed.

(** C3.  A chord token whose quality contains no slash: the result is
    the transposed tonic followed by the quality as it was; a quality
    that is absent counts as the empty string. *)
Theorem transpose_plain_chord chordToken direction tonic chordType :
  Chord_tokenize (value chordToken) = (tonic, chordType) ->
  JS.includes "/" (default "" chordType) = false ->
  transposedChord Chord_tokenize transposeTonic chordToken direction
  = transposeTonic tonic direction +:+ default "" chordType.
Proof.
  intros Htok Hinc. unfold transposedChord. rewrite Htok.
  destruct chordType as [type|]; simpl in *; [|reflexivity].
  rewrite Hinc, andb_false_r. reflexivity.
Qed.

(** C10.  A quality with two slashes or more: only the text before the
    first slash and the text between the first and the second slash
    reach the result; whatever follows the second slash does not. *)
Theorem transpose_drops_after_second_slash chordToken direction tonic quality :
  Chord_tokenize (value chordToken) = (tonic, Some quality) ->
  2 <= JS.count "/" quality ->
  exists firstQualityPart secondPart dropped,
    quality = firstQualityPart +:+ "/" +:+ secondPart +:+ "/" +:+ dropped
    /\ JS.includes "/" firstQualityPart = false
    /\ JS.includes "/" secondPart = false
    /\ transposedChord Chord_tokenize transposeTonic chordToken direction
       = transposeTonic tonic direction +:+ firstQualityPart +:+ "/"
         +:+ transposeTonic secondPart direction.
Proof.
  intros Htok Hcount.
  destruct (split_two_separators _ _ Hcount) as (p & q & r & more & Hsplit).
  pose proof (split_pieces_free "/" quality) as Hfree.
  rewrite Hsplit in Hfree.
  inversion Hfree as [|? ? Hp Hrest]; subst.
  inversion Hrest as [|? ? Hq _]; subst.
  exists p, q, (JS.join "/" (r :: more)). repeat split; try assumption.
  - rewrite <- (join_split "/" quality) at 1. rewrite Hsplit. reflexivity.
  - apply transposedChord_pieces with (type := quality) (more := r :: more);
      [assumption | apply includes_count; lia | assumption].
Qed.

End TransposeFacts.

(** ** [transpose]: the batch of changes *)

(** A loop that pushes one element per step builds the image of its input,
    after what the array held before. *)
Lemma push_loop {A B : Type} (f : A -> B) (l : list A) (acc : list B) :
  fold_left (fun changes x => changes ++ [f x]) l acc = acc ++ map f l.
Proof.
  revert acc. induction l as [|x l IH]; intros acc; simpl.
  - now rewrite app_nil_r.
  - rewrite IH, <- app_assoc. reflexivity.
Qed.

Section BatchFacts.

Variable Chord_tokenize : string -> string * option string.
Variable transposeTonic : string -> Direction -> string.

Lemma transpose_map (chordTokenRanges : list ChordTokenRange) (direction : Direction) :
  transpose Chord_tokenize transposeTonic chordTokenRanges direction
  = map (change_of Chord_tokenize transposeTonic direction) chordTokenRanges.
Proof. unfold transpose. now rewrite push_loop. Qed.

Lemma transpose_app (before after : list ChordTokenRange) (direction : Direction) :
  transpose Chord_tokenize transposeTonic (before ++ after) direction
  = transpose Chord_tokenize transposeTonic before direction
    ++ transpose Chord_tokenize transposeTonic after direction.
Proof. rewrite !transpose_map. apply map_app. Qed.

Lemma transpose_spans (chordTokenRanges : list ChordTokenRange) (direction : Direction) :
  map change_span (transpose Chord_tokenize transposeTonic chordTokenRanges direction)
  = map range_span chordTokenRanges.
Proof.
  rewrite transpose_map, map_map. apply map_ext. now intros [? ? ?].
Qed.

(** C4.  The changes built for [N] chord token ranges: there are [N] of
    them; the change at each position carries the span of the range at
    that position and the transposed string of its token, so nothing is
    reordered and nothing merged; and when the spans of the input are in
    ascending order and disjoint, so are the spans of the changes. *)
Theorem transpose_edit_batch (chordTokenRanges : list ChordTokenRange) (direction : Direction) :
  let changes := transpose Chord_tokenize transposeTonic chordTokenRanges direction in
  length changes = length chordTokenRanges
  /\ (forall (i : nat) (range : ChordTokenRange),
        chordTokenRanges !! i = Some range ->
        changes !! i
        = Some {| change_from := from range;
                  change_to := to range;
                  change_insert :=
                    transposedChord Chord_tokenize transposeTonic (chordToken range) direction |})
  /\ (ordered_disjoint (map range_span chordTokenRanges) ->
      ordered_disjoint (map change_span changes)).
Proof.
  intros changes. subst changes. split; [|split].
  - now rewrite transpose_map, length_map.
  - intros i range Hi. rewrite transpose_map, list_lookup_fmap_Some.
    exists range. split; [reflexivity | exact Hi].
  - now rewrite transpose_spans.
Qed.

End BatchFacts.

(** ** The modelled collaborators: pitch classes and spelling *)

Section PitchFacts.

Import Model.
Local Open Scope Z_scope.

Ltac each_pitch p :=
  let H := fresh in
  assert (H : p = 0 \/ p = 1 \/ p = 2 \/ p = 3 \/ p = 4 \/ p = 5 \/ p = 6
              \/ p = 7 \/ p = 8 \/ p = 9 \/ p = 10 \/ p = 11) by lia;
  repeat (destruct H as [H|H]); subst p.

Lemma pitchClass_range tonic p : pitchClass tonic = Some p -> 0 <= p < 12.
Proof.
  destruct tonic as [|c accidentals]; simpl; [discriminate|].
  destruct (letter_pitch c), (accidental_shift accidentals); try discriminate.
  intros [= <-]. apply Z.mod_pos_bound. lia.
Qed.

(** Each spelling names the pitch class it was chosen for. *)
Lemma pitchClass_spell direction p :
  0 <= p < 12 -> pitchClass (spell direction p) = Some p.
Proof. intros Hp. each_pitch p; destruct direction; reflexivity. Qed.

Lemma step_range p direction : 0 <= (p + semitone direction) mod 12 < 12.
Proof. apply Z.mod_pos_bound. lia. Qed.

(** [transposeTonic] moves a tonic by one semitone, modulo twelve. *)
Lemma transposeTonic_pitchClass tonic direction p :
  pitchClass tonic = Some p ->
  transposeTonic tonic direction = spell direction ((p + semitone direction) mod 12)
  /\ pitchClass (transposeTonic tonic direction) = Some ((p + semitone direction) mod 12).
Proof.
  intros Hp. unfold transposeTonic. rewrite Hp. split; [reflexivity|].
  apply pitchClass_spell, step_range.
Qed.

(** A string that is no tonic is returned as it is. *)
Lemma transposeTonic_verbatim s direction :
  pitchClass s = None -> transposeTonic s direction = s.
Proof. intros H. unfold transposeTonic. now rewrite H. Qed.

Lemma there_and_back p first second :
  0 <= p < 12 -> first <> second ->
  ((p + semitone first) mod 12 + semitone second) mod 12 = p.
Proof.
  intros Hp Hdir. each_pitch p; destruct first, second; try reflexivity; congruence.
Qed.

(** What [Chord_tokenize] leaves as quality does not start with an
    accidental. *)
Lemma span_accidentals_rest s : starts_with_accidental (span_accidentals s).2 = false.
Proof.
  induction s as [|c s' IH]; simpl; [reflexivity|].
  destruct (is_accidental c) eqn:Hc.
  - destruct (span_accidentals s'); exact IH.
  - simpl. exact Hc.
Qed.

Lemma tokenize_quality name tonic chordType :
  Chord_tokenize name = (tonic, chordType) ->
  exists quality, chordType = Some quality
    /\ (tonic <> EmptyString -> starts_with_accidental quality = false).
Proof.
  destruct name as [|c s']; simpl.
  - intros [= <- <-]. now exists EmptyString.
  - destruct (is_root_letter c).
    + pose proof (span_accidentals_rest s') as Hrest.
      destruct (span_accidentals s') as [a q]. intros [= <- <-].
      exists q. split; [reflexivity | intros _; exact Hrest].
    + intros [= <- <-]. exists (String c s'). split; [reflexivity | congruence].
Qed.

(** A spelled pitch class in front of a text that does not start with an
    accidental is read back as the tonic, the text as the quality. *)
Lemma tokenize_spelled direction p rest :
  0 <= p < 12 -> starts_with_accidental rest = false ->
  Chord_tokenize (spell direction p +:+ rest) = (spell direction p, Some rest).
Proof.
  intros Hp Hrest.
  each_pitch p; destruct direction;
    match goal with
    | |- context [spell ?d ?q] =>
        let name := eval vm_compute in (spell d q) in
        change (spell d q) with name
    end;
    destruct rest as [|c r]; simpl in *; try rewrite Hrest; reflexivity.
Qed.

(** The first piece of a text, followed by a slash, starts as the text
    does or with the slash. *)
Lemma first_piece_start type first more tail :
  JS.split "/" type = first :: more ->
  starts_with_accidental type = false ->
  starts_with_accidental (first +:+ "/" +:+ tail) = false.
Proof.
  destruct type as [|a s']; simpl.
  - intros [= <- <-] _. reflexivity.
  - destruct (Ascii.eqb a "/") eqn:Ha.
    + intros [= <- <-] _. reflexivity.
    + destruct (JS.split "/" s'); intros [= <- <-] H; exact H.
Qed.

End PitchFacts.

(** ** Transposing there and back *)

Section RoundTrip.

Import Model.
Local Open Scope Z_scope.

Lemma pitchClass_tonic_nonempty tonic p : pitchClass tonic = Some p -> tonic <> EmptyString.
Proof. now destruct tonic. Qed.

(** The tonic of a transposed token is the spelling of the moved pitch
    class: the quality that follows it is not read as part of it. *)
Lemma tonicOf_transposeToken chordToken direction p :
  pitchClass (tonicOf chordToken) = Some p ->
  tonicOf (transposeToken chordToken direction)
  = spell direction ((p + semitone direction) mod 12).
Proof.
  unfold tonicOf, transposeToken, transposedChord. simpl.
  destruct (Chord_tokenize (value chordToken)) as [tonic chordType] eqn:Htok.
  simpl. intros Hp.
  destruct (tokenize_quality _ _ _ Htok) as (quality & -> & Hstart).
  specialize (Hstart (pitchClass_tonic_nonempty _ _ Hp)).
  destruct (transposeTonic_pitchClass tonic direction p Hp) as [-> _].
  pose proof (step_range p direction) as Hrange.
  destruct (JS.truthy_string quality && JS.includes "/" quality).
  - destruct (JS.split "/" quality) as [|first [|second more]] eqn:Hsplit.
    + now rewrite tokenize_spelled.
    + now rewrite tokenize_spelled.
    + rewrite tokenize_spelled; [reflexivity | assumption |].
      now apply first_piece_start with (type := quality) (more := second :: more).
  - now rewrite tokenize_spelled.
Qed.

Lemma round_trip_tonic chordToken p first second :
  first <> second ->
  pitchClass (tonicOf chordToken) = Some p ->
  tonicOf (transposeToken (transposeToken chordToken first) second) = spell second p.
Proof.
  intros Hdir Hp.
  pose proof (pitchClass_range _ _ Hp) as Hrange.
  rewrite (tonicOf_transposeToken _ second ((p + semitone first) mod 12)).
  - now rewrite there_and_back.
  - rewrite (tonicOf_transposeToken _ first p Hp).
    apply pitchClass_spell, step_range.
Qed.

(** The twelve sharp names are the twelve pitch classes, in order. *)
Lemma twelve_pitch_classes :
  pitchClass <$> sharp_names = Some <$> [0; 1; 2; 3; 4; 5; 6; 7; 8; 9; 10; 11].
Proof. reflexivity. Qed.

(** C2.  A chord token whose tonic has pitch class [p], in whatever
    spelling: transposed up and then down, and transposed down and then
    up, its tonic has pitch class [p] again.  The tonic that comes back
    is the simplest spelling of [p] for the direction of the second
    step, so the spelling differs from the original one only where the
    original was not that spelling. *)
Theorem transpose_round_trip (chordToken : ChordToken) (p : Z) :
  pitchClass (tonicOf chordToken) = Some p ->
  let upDown := transposeToken (transposeToken chordToken up) down in
  let downUp := transposeToken (transposeToken chordToken down) up in
  pitchClass (tonicOf upDown) = Some p
  /\ pitchClass (tonicOf downUp) = Some p
  /\ tonicOf upDown = spell down p
  /\ tonicOf downUp = spell up p
  /\ (tonicOf upDown <> tonicOf chordToken -> tonicOf chordToken <> spell down p)
  /\ (tonicOf downUp <> tonicOf chordToken -> tonicOf chordToken <> spell up p).
Proof.
  intros Hp upDown downUp.
  pose proof (pitchClass_range _ _ Hp) as Hrange.
  assert (Hud : tonicOf upDown = spell down p)
    by (apply round_trip_tonic; [discriminate | exact Hp]).
  assert (Hdu : tonicOf downUp = spell up p)
    by (apply round_trip_tonic; [discriminate | exact Hp]).
  rewrite Hud, Hdu. repeat split.
  - now apply pitchClass_spell.
  - now apply pitchClass_spell.
  - intros Hne Heq. now apply Hne.
  - intros Hne Heq. now apply Hne.
Qed.

(** C7.  A slash chord whose bass note part is no recognizable tonic:
    the bass note part is passed through verbatim, after the transposed
    tonic and the chord quality part; and in a batch, the changes of the
    tokens before and after it are produced as they are without it. *)
Theorem malformed_bass_passes_through
    (before after : list ChordTokenRange) (malformed : ChordTokenRange)
    (direction : Direction) (tonic quality chordQualityPart bass : string)
    (more : list string) :
  Chord_tokenize (value (chordToken malformed)) = (tonic, Some quality) ->
  JS.includes "/" quality = true ->
  JS.split "/" quality = chordQualityPart :: bass :: more ->
  pitchClass bass = None ->
  transposedChord Chord_tokenize transposeTonic (chordToken malformed) direction
  = transposeTonic tonic direction +:+ chordQualityPart +:+ "/" +:+ bass
  /\ transpose Chord_tokenize transposeTonic (before ++ malformed :: after) direction
     = transpose Chord_tokenize transposeTonic before direction
       ++ {| change_from := from malformed;
             change_to := to malformed;
             change_insert :=
               transposeTonic tonic direction +:+ chordQualityPart +:+ "/" +:+ bass |}
       :: transpose Chord_tokenize transposeTonic after direction.
Proof.
  intros Htok Hinc Hsplit Hbass.
  assert (Hchord :
    transposedChord Chord_tokenize transposeTonic (chordToken malformed) direction
    = transposeTonic tonic direction +:+ chordQualityPart +:+ "/" +:+ bass).
  { rewrite (transposedChord_pieces _ _ _ _ _ _ _ _ _ Htok Hinc Hsplit).
    now rewrite (transposeTonic_verbatim bass). }
  split; [exact Hchord|].
  rewrite transpose_app. f_equal.
  rewrite (transpose_map _ _ (malformed :: after)), transpose_map. simpl.
  f_equal. unfold change_of. now rewrite Hchord.
Qed.

End RoundTrip.

(** ** [extendChordType] and the module constant *)

Section RegistryFacts.

Variable table : Type.
Variable ChordType_get : table -> string -> object.
Variable ChordType_add : option JSValue -> option JSValue -> option JSValue -> table -> table.

Implicit Types (t : table) (type : string) (extension : object).

(** What each outcome of [extendChordType] says about the base type. *)
Lemma extendChordType_outcome t type extension :
  match extendChordType table ChordType_get t type extension with
  | inl (Error message) =>
      not_found table ChordType_get t type = true /\ message = not_found_message type
  | inl TypeError => not_found table ChordType_get t type = false
  | inr _ => not_found table ChordType_get t type = false
  end.
Proof.
  unfold extendChordType, not_found.
  destruct (truthy (ChordType_get t type !! "empty")); simpl; [now split|].
  destruct (default VUndefined (ChordType_get t type !! "aliases")); simpl; try easy;
    destruct (or_else (extension !! "aliases") (VArr [])); simpl; easy.
Qed.

Lemma extendChordType_throws t type extension :
  not_found table ChordType_get t type = true ->
  extendChordType table ChordType_get t type extension
  = inl (Error (not_found_message type)).
Proof. unfold extendChordType, not_found. now intros ->. Qed.

(** The spread of an extension that sets [aliases] under the merged
    aliases: the extension's own [aliases] is overwritten. *)
Lemma insert_over_extension (key : string) (merged own : JSValue) (base : object) :
  <[key := merged]> ({[key := own]} ∪ base) = <[key := merged]> base.
Proof.
  apply map_eq. intros field.
  destruct (decide (key = field)) as [->|Hne].
  - now rewrite !lookup_insert_eq.
  - rewrite !lookup_insert_ne by assumption.
    apply lookup_union_r. now apply lookup_singleton_ne.
Qed.

(** An existing base type with an array of aliases, extended by an
    extension whose [aliases] is absent, [undefined] or an array. *)
Lemma extendChordType_found t type extension baseAliases extensionAliases :
  not_found table ChordType_get t type = false ->
  ChordType_get t type !! "aliases" = Some (VArr baseAliases) ->
  extension_aliases extension = Some extensionAliases ->
  extendChordType table ChordType_get t type extension
  = inr (<["aliases" := VArr (baseAliases ++ extensionAliases)]>
           (extension ∪ ChordType_get t type)).
Proof.
  unfold extendChordType, not_found, extension_aliases, or_else.
  intros -> -> Hext. simpl.
  destruct (extension !! "aliases") as [[| | | |items]|]; simpl in *;
    try discriminate; now injection Hext as <-.
Qed.

(** C5.  A base type that [ChordType.get] does not find: the call throws
    the [Error] whose message names the type.  For the module, whose
    constant extends the three base types ["7#5"], ["M7"] and ["m9"]:
    when one of them is missing, loading the module ends in an
    exception, which is a [TypeError] or the [Error] naming a missing
    base type; [addCustomChordTypes] is not reached and the table is
    the one before. *)
Theorem extendChordType_unknown_base t type extension :
  not_found table ChordType_get t type = true ->
  extendChordType table ChordType_get t type extension
  = inl (Error ("Error while extending chord type: chord type " +:+ type +:+ " not found."))
  /\ (In type ["7#5"; "M7"; "m9"] ->
      exists e,
        customChordTypes table ChordType_get t = inl e
        /\ loadAndAdd table ChordType_get ChordType_add t = (Some e, t)
        /\ (e = TypeError
            \/ exists missing,
                 In missing ["7#5"; "M7"; "m9"]
                 /\ not_found table ChordType_get t missing = true
                 /\ e = Error (not_found_message missing))).
Proof.
  intros Hmissing. split; [now apply extendChordType_throws|].
  intros Hin. unfold loadAndAdd, customChordTypes.
  pose proof (extendChordType_outcome t "7#5" {[ "aliases" := VArr ["7(5+)"; "7(+5)"; "7+5"] ]}) as H1.
  pose proof (extendChordType_outcome t "M7" {[ "aliases" := VArr ["7M"] ]}) as H2.
  pose proof (extendChordType_outcome t "m9" {[ "aliases" := VArr ["m7(9)"] ]}) as H3.
  destruct (extendChordType _ _ t "7#5" _) as [[m1|]|o1]; simpl.
  { destruct H1 as [H1 ->]. eexists; repeat split. right. exists "7#5". simpl. tauto. }
  { eexists; repeat split. now left. }
  destruct (extendChordType _ _ t "M7" _) as [[m2|]|o2]; simpl.
  { destruct H2 as [H2 ->]. eexists; repeat split. right. exists "M7". simpl. tauto. }
  { eexists; repeat split. now left. }
  destruct (extendChordType _ _ t "m9" _) as [[m3|]|o3]; simpl.
  { destruct H3 as [H3 ->]. eexists; repeat split. right. exists "m9". simpl. tauto. }
  { eexists; repeat split. now left. }
  simpl in Hin. destruct Hin as [<-|[<-|[<-|[]]]]; congruence.
Qed.

(** C6.  An existing base type, extended: the aliases of the result are
    the base's aliases followed by the extension's, in that order, with
    nothing removed; every other field the extension has is the
    extension's in the result; every other field the extension lacks is
    the base's. *)
Theorem extendChordType_merge t type extension baseAliases extensionAliases :
  not_found table ChordType_get t type = false ->
  ChordType_get t type !! "aliases" = Some (VArr baseAliases) ->
  extension_aliases extension = Some extensionAliases ->
  exists merged,
    extendChordType table ChordType_get t type extension = inr merged
    /\ merged !! "aliases" = Some (VArr (baseAliases ++ extensionAliases))
    /\ (forall field v, field <> "aliases" ->
          extension !! field = Some v -> merged !! field = Some v)
    /\ (forall field, field <> "aliases" ->
          extension !! field = None -> merged !! field = ChordType_get t type !! field).
Proof.
  intros Hfound Hbase Hext.
  exists (<["aliases" := VArr (baseAliases ++ extensionAliases)]>
            (extension ∪ ChordType_get t type)).
  split; [|split; [|split]].
  - now apply extendChordType_found.
  - apply lookup_insert_eq.
  - intros field v Hne Hfield.
    rewrite lookup_insert_ne by congruence. now apply lookup_union_Some_l.
  - intros field Hne Hfield.
    rewrite lookup_insert_ne by congruence. now apply lookup_union_r.
Qed.

(** C9.  The module constant, when the three base types exist: four
    entries, in this order: ["7#5"] with the aliases ["7(5+)"],
    ["7(+5)"], ["7+5"] after its own, ["M7"] with ["7M"] after its own,
    ["m9"] with ["m7(9)"] after its own, and the new chord type named
    "suspended four sharp five" with the intervals perfect unison (the
    root), perfect fourth and augmented fifth, and the aliases
    ["sus4#5"] and ["4(5+)"]. *)
Theorem customChordTypes_preconfigured t (aliases7s5 aliasesM7 aliasesm9 : list string) :
  not_found table ChordType_get t "7#5" = false ->
  not_found table ChordType_get t "M7" = false ->
  not_found table ChordType_get t "m9" = false ->
  ChordType_get t "7#5" !! "aliases" = Some (VArr aliases7s5) ->
  ChordType_get t "M7" !! "aliases" = Some (VArr aliasesM7) ->
  ChordType_get t "m9" !! "aliases" = Some (VArr aliasesm9) ->
  customChordTypes table ChordType_get t
  = inr [ <["aliases" := VArr (aliases7s5 ++ ["7(5+)"; "7(+5)"; "7+5"])]> (ChordType_get t "7#5");
          <["aliases" := VArr (aliasesM7 ++ ["7M"])]> (ChordType_get t "M7");
          <["aliases" := VArr (aliasesm9 ++ ["m7(9)"])]> (ChordType_get t "m9");
          {[ "name" := VStr "suspended four sharp five";
             "intervals" := VArr [ Tonal.interval 1 Tonal.Perfect;
                                   Tonal.interval 4 Tonal.Perfect;
                                   Tonal.interval 5 Tonal.Augmented ];
             "aliases" := VArr ["sus4#5"; "4(5+)"] ]} ].
Proof.
  intros F1 F2 F3 A1 A2 A3. unfold customChordTypes.
  rewrite (extendChordType_found t "7#5" _ aliases7s5 ["7(5+)"; "7(+5)"; "7+5"] F1 A1)
    by (unfold extension_aliases; now rewrite lookup_singleton_eq).
  rewrite (extendChordType_found t "M7" _ aliasesM7 ["7M"] F2 A2)
    by (unfold extension_aliases; now rewrite lookup_singleton_eq).
  rewrite (extendChordType_found t "m9" _ aliasesm9 ["m7(9)"] F3 A3)
    by (unfold extension_aliases; now rewrite lookup_singleton_eq).
  simpl. now rewrite !insert_over_extension.
Qed.

End RegistryFacts.

(** ** [addCustomChordTypes] on the chord-symbol table *)

Section TableFacts.

Import Tonal.

Implicit Types (t : gmap string object) (writes : list (string * object)).

(** A run of bindings, the later ones over the earlier ones, is the map
    of the bindings read backwards, over the table before. *)
Lemma bind_all writes t :
  fold_left (fun t write => <[write.1 := write.2]> t) writes t
  = list_to_map (reverse writes) ∪ t.
Proof.
  revert t. induction writes as [|[key entry] writes IH]; intros t; simpl.
  - now rewrite (left_id_L ∅ (∪)).
  - rewrite IH, reverse_cons, list_to_map_app. simpl.
    rewrite insert_empty, <- (assoc_L (∪)).
    now rewrite <- insert_union_singleton_l.
Qed.

Lemma ChordType_add_writes chordType t :
  ChordType_add (chordType !! "intervals") (chordType !! "aliases") (chordType !! "name") t
  = fold_left (fun t write => <[write.1 := write.2]> t) (chord_writes chordType) t.
Proof.
  unfold ChordType_add, chord_writes.
  generalize (chord_entry (chordType !! "intervals") (chordType !! "aliases")
                (chordType !! "name")) as entry.
  generalize (chord_keys (chordType !! "aliases") (chordType !! "name")) as keys.
  intros keys entry. revert t.
  induction keys as [|key keys IH]; intros t; simpl; [reflexivity | apply IH].
Qed.

Lemma addCustomChordTypes_writes (chordTypes : list object) t :
  addCustomChordTypes (gmap string object) ChordType_add chordTypes t
  = fold_left (fun t write => <[write.1 := write.2]> t) (chordTypes ≫= chord_writes) t.
Proof.
  unfold addCustomChordTypes. revert t.
  induction chordTypes as [|chordType chordTypes IH]; intros t; simpl; [reflexivity|].
  rewrite IH, ChordType_add_writes. now rewrite fold_left_app.
Qed.

Lemma addCustomChordTypes_union (chordTypes : list object) t :
  addCustomChordTypes (gmap string object) ChordType_add chordTypes t
  = list_to_map (reverse (chordTypes ≫= chord_writes)) ∪ t.
Proof. now rewrite addCustomChordTypes_writes, bind_all. Qed.

(** C8.  Calling [addCustomChordTypes] a second time leaves the table as
    the first call left it.  After a call, every key of every chord type
    of the module constant (its name and each of its aliases) is bound
    in the table, to the entry (intervals, aliases and name) of a chord
    type of the constant that has this key. *)
Theorem addCustomChordTypes_idempotent (chordTypes : list object) t :
  let once := addCustomChordTypes (gmap string object) ChordType_add chordTypes t in
  addCustomChordTypes (gmap string object) ChordType_add chordTypes once = once
  /\ (forall chordType key,
        chordType ∈ chordTypes ->
        key ∈ chord_keys (chordType !! "aliases") (chordType !! "name") ->
        exists registered,
          registered ∈ chordTypes
          /\ key ∈ chord_keys (registered !! "aliases") (registered !! "name")
          /\ once !! key
             = Some (chord_entry (registered !! "intervals") (registered !! "aliases")
                       (registered !! "name"))).
Proof.
  intros once. subst once. split.
  - rewrite !addCustomChordTypes_union, (assoc_L (∪)). now rewrite (idemp_L (∪)).
  - intros chordType key Hin Hkey. rewrite addCustomChordTypes_union.
    assert (Hbound : is_Some
              (list_to_map (M := gmap string object)
                 (reverse (chordTypes ≫= chord_writes)) !! key)).
    { apply not_eq_None_Some. intros Hnone.
      apply not_elem_of_list_to_map in Hnone. apply Hnone.
      rewrite fmap_reverse, elem_of_reverse, list_elem_of_fmap.
      exists (key, chord_entry (chordType !! "intervals") (chordType !! "aliases")
                     (chordType !! "name")).
      split; [reflexivity|].
      apply list_elem_of_bind. exists chordType. split; [|exact Hin].
      unfold chord_writes. apply list_elem_of_fmap. now exists key. }
    destruct Hbound as [entry Hentry].
    pose proof (elem_of_list_to_map_2 _ _ _ Hentry) as Hwrite.
    rewrite elem_of_reverse in Hwrite.
    apply list_elem_of_bind in Hwrite as (registered & Hwrite & Hreg).
    unfold chord_writes in Hwrite.
    apply list_elem_of_fmap in Hwrite as (key' & [= <- ->] & Hkey').
    exists registered. repeat split; try assumption.
    now apply lookup_union_Some_l.
Qed.

End TableFacts.

(** ** The theorems at concrete chords and tables *)

Lemma transpose_slash_chord_witness :
  Model.Chord_tokenize "G/B" = ("G", Some "/B")
  /\ JS.includes "/" "/B" = true
  /\ transposedChord Model.Chord_tokenize Model.transposeTonic {| value := "G/B" |} up
     = "G#/C".
Proof.
  split; [reflexivity | split; [reflexivity|]].
  destruct (transpose_slash_chord Model.Chord_tokenize Model.transposeTonic
              {| value := "G/B" |} up "G" "/B" eq_refl eq_refl)
    as (quality & bass & more & Hsplit & _ & _ & _ & Hchord).
  vm_compute in Hsplit. injection Hsplit as <- <- <-.
  rewrite Hchord. reflexivity.
Defined.

Lemma transpose_plain_chord_witness :
  (JS.includes "/" "" = false
   /\ transposedChord Model.Chord_tokenize Model.transposeTonic {| value := "C" |} up = "C#")
  /\ (JS.includes "/" "" = false
      /\ transposedChord Model.Chord_tokenize Model.transposeTonic {| value := "C#" |} down = "C").
Proof.
  split; (split; [reflexivity|]).
  - rewrite (transpose_plain_chord Model.Chord_tokenize Model.transposeTonic
               {| value := "C" |} up "C" (Some "") eq_refl eq_refl).
    reflexivity.
  - rewrite (transpose_plain_chord Model.Chord_tokenize Model.transposeTonic
               {| value := "C#" |} down "C#" (Some "") eq_refl eq_refl).
    reflexivity.
Defined.

Lemma transpose_drops_after_second_slash_witness :
  Model.Chord_tokenize "C7/G/B" = ("C", Some "7/G/B")
  /\ 2 <= JS.count "/" "7/G/B"
  /\ (exists firstQualityPart secondPart dropped,
        "7/G/B" = firstQualityPart +:+ "/" +:+ secondPart +:+ "/" +:+ dropped
        /\ JS.includes "/" firstQualityPart = false
        /\ JS.includes "/" secondPart = false
        /\ transposedChord Model.Chord_tokenize Model.transposeTonic {| value := "C7/G/B" |} up
           = Model.transposeTonic "C" up +:+ firstQualityPart +:+ "/"
             +:+ Model.transposeTonic secondPart up)
  /\ transposedChord Model.Chord_tokenize Model.transposeTonic {| value := "C7/G/B" |} up
     = "C#7/G#".
Proof.
  assert (Hcount : 2 <= JS.count "/" "7/G/B") by (simpl; lia).
  split; [reflexivity | split; [exact Hcount | split; [|reflexivity]]].
  exact (transpose_drops_after_second_slash Model.Chord_tokenize Model.transposeTonic
           {| value := "C7/G/B" |} up "C" "7/G/B" eq_refl Hcount).
Defined.

Lemma transpose_edit_batch_witness :
  ordered_disjoint (map range_span two_ranges)
  /\ transpose Model.Chord_tokenize Model.transposeTonic two_ranges up
     = [ {| change_from := 0; change_to := 1; change_insert := "C#" |};
         {| change_from := 2; change_to := 5; change_insert := "G#/C" |} ]
  /\ ordered_disjoint
       (map change_span (transpose Model.Chord_tokenize Model.transposeTonic two_ranges up)).
Proof.
  assert (Hin : ordered_disjoint (map range_span two_ranges)).
  { repeat constructor; simpl; lia. }
  destruct (transpose_edit_batch Model.Chord_tokenize Model.transposeTonic two_ranges up)
    as (_ & _ & Hsorted).
  split; [exact Hin | split; [reflexivity | exact (Hsorted Hin)]].
Defined.

Lemma transpose_round_trip_witness :
  Model.pitchClass (Model.tonicOf {| value := "Fbm7" |}) = Some 4%Z
  /\ Model.tonicOf
       (Model.transposeToken (Model.transposeToken {| value := "Fbm7" |} up) down) = "E"
  /\ Model.pitchClass
       (Model.tonicOf
          (Model.transposeToken (Model.transposeToken {| value := "Fbm7" |} up) down))
     = Some 4%Z
  /\ Model.pitchClass
       (Model.tonicOf
          (Model.transposeToken (Model.transposeToken {| value := "Fbm7" |} down) up))
     = Some 4%Z.
Proof.
  destruct (transpose_round_trip {| value := "Fbm7" |} 4 eq_refl)
    as (HupDown & HdownUp & _).
  split; [reflexivity | split; [reflexivity | split; [exact HupDown | exact HdownUp]]].
Defined.

Lemma malformed_bass_passes_through_witness :
  Model.Chord_tokenize "Am7/xyz" = ("A", Some "m7/xyz")
  /\ JS.includes "/" "m7/xyz" = true
  /\ JS.split "/" "m7/xyz" = ["m7"; "xyz"]
  /\ Model.pitchClass "xyz" = None
  /\ transposedChord Model.Chord_tokenize Model.transposeTonic {| value := "Am7/xyz" |} up
     = "A#m7/xyz"
  /\ transpose Model.Chord_tokenize Model.transposeTonic three_ranges up
     = [ {| change_from := 0; change_to := 1; change_insert := "C#" |};
         {| change_from := 2; change_to := 9; change_insert := "A#m7/xyz" |};
         {| change_from := 10; change_to := 13; change_insert := "G#/C" |} ].
Proof.
  destruct (malformed_bass_passes_through
              [ {| from := 0; to := 1; chordToken := {| value := "C" |} |} ]
              [ {| from := 10; to := 13; chordToken := {| value := "G/B" |} |} ]
              {| from := 2; to := 9; chordToken := {| value := "Am7/xyz" |} |}
              up "A" "m7/xyz" "m7" "xyz" [] eq_refl eq_refl eq_refl eq_refl)
    as [Hchord Hbatch].
  do 4 (split; [reflexivity|]).
  split; [exact Hchord | exact Hbatch].
Defined.

Lemma extendChordType_unknown_base_witness :
  not_found (gmap string object) Tonal.ChordType_get ∅ "M7" = true
  /\ extendChordType (gmap string object) Tonal.ChordType_get ∅ "M7" {[ "aliases" := VArr ["7M"] ]}
     = inl (Error "Error while extending chord type: chord type M7 not found.")
  /\ loadAndAdd (gmap string object) Tonal.ChordType_get Tonal.ChordType_add ∅
     = (Some (Error "Error while extending chord type: chord type 7#5 not found."), ∅).
Proof.
  assert (Hmissing : not_found (gmap string object) Tonal.ChordType_get ∅ "M7" = true)
    by (vm_compute; reflexivity).
  destruct (extendChordType_unknown_base (gmap string object) Tonal.ChordType_get
              Tonal.ChordType_add ∅ "M7" {[ "aliases" := VArr ["7M"] ]} Hmissing)
    as [Hthrow _].
  split; [exact Hmissing | split; [exact Hthrow | vm_compute; reflexivity]].
Defined.

Lemma extendChordType_merge_witness :
  not_found (gmap string object) Tonal.ChordType_get Tonal.base_table "M7" = false
  /\ Tonal.ChordType_get Tonal.base_table "M7" !! "aliases" = Some (VArr ["maj7"; "M7"])
  /\ extension_aliases {[ "aliases" := VArr ["7M"] ]} = Some ["7M"]
  /\ exists merged,
       extendChordType (gmap string object) Tonal.ChordType_get Tonal.base_table "M7"
         {[ "aliases" := VArr ["7M"] ]} = inr merged
       /\ merged !! "aliases" = Some (VArr ["maj7"; "M7"; "7M"])
       /\ merged !! "name" = Some (VStr "major seventh").
Proof.
  assert (Hfound : not_found (gmap string object) Tonal.ChordType_get Tonal.base_table "M7"
                   = false) by (vm_compute; reflexivity).
  assert (Hbase : Tonal.ChordType_get Tonal.base_table "M7" !! "aliases"
                  = Some (VArr ["maj7"; "M7"])) by (vm_compute; reflexivity).
  assert (Hext : extension_aliases {[ "aliases" := VArr ["7M"] ]} = Some ["7M"])
    by (vm_compute; reflexivity).
  destruct (extendChordType_merge (gmap string object) Tonal.ChordType_get
              Tonal.base_table "M7" {[ "aliases" := VArr ["7M"] ]} ["maj7"; "M7"] ["7M"]
              Hfound Hbase Hext)
    as (merged & Hextend & Haliases & _ & Hinherit).
  split; [exact Hfound | split; [exact Hbase | split; [exact Hext|]]].
  exists merged. split; [exact Hextend | split; [exact Haliases|]].
  rewrite (Hinherit "name"); [vm_compute; reflexivity | discriminate | vm_compute; reflexivity].
Defined.

Lemma customChordTypes_preconfigured_witness :
  (not_found (gmap string object) Tonal.ChordType_get Tonal.base_table "7#5" = false
   /\ not_found (gmap string object) Tonal.ChordType_get Tonal.base_table "M7" = false
   /\ not_found (gmap string object) Tonal.ChordType_get Tonal.base_table "m9" = false)
  /\ exists chordTypes,
       customChordTypes (gmap string object) Tonal.ChordType_get Tonal.base_table
       = inr chordTypes
       /\ length chordTypes = 4
       /\ (.!! "aliases") <$> chordTypes
          = [ Some (VArr ["7#5"; "+7"; "7(5+)"; "7(+5)"; "7+5"]);
              Some (VArr ["maj7"; "M7"; "7M"]);
              Some (VArr ["m9"; "-9"; "m7(9)"]);
              Some (VArr ["sus4#5"; "4(5+)"]) ].
Proof.
  assert (F1 : not_found (gmap string object) Tonal.ChordType_get Tonal.base_table "7#5"
               = false) by (vm_compute; reflexivity).
  assert (F2 : not_found (gmap string object) Tonal.ChordType_get Tonal.base_table "M7"
               = false) by (vm_compute; reflexivity).
  assert (F3 : not_found (gmap string object) Tonal.ChordType_get Tonal.base_table "m9"
               = false) by (vm_compute; reflexivity).
  assert (A1 : Tonal.ChordType_get Tonal.base_table "7#5" !! "aliases"
               = Some (VArr ["7#5"; "+7"])) by (vm_compute; reflexivity).
  assert (A2 : Tonal.ChordType_get Tonal.base_table "M7" !! "aliases"
               = Some (VArr ["maj7"; "M7"])) by (vm_compute; reflexivity).
  assert (A3 : Tonal.ChordType_get Tonal.base_table "m9" !! "aliases"
               = Some (VArr ["m9"; "-9"])) by (vm_compute; reflexivity).
  pose proof (customChordTypes_preconfigured (gmap string object) Tonal.ChordType_get
                Tonal.base_table ["7#5"; "+7"] ["maj7"; "M7"] ["m9"; "-9"]
                F1 F2 F3 A1 A2 A3) as Hconstant.
  split; [repeat split; assumption|].
  eexists. split; [exact Hconstant | split; [reflexivity | vm_compute; reflexivity]].
Defined.

Lemma addCustomChordTypes_idempotent_witness :
  addCustomChordTypes (gmap string object) Tonal.ChordType_add [suspendedFourSharpFive]
    (addCustomChordTypes (gmap string object) Tonal.ChordType_add [suspendedFourSharpFive] Tonal.base_table)
  = addCustomChordTypes (gmap string object) Tonal.ChordType_add [suspendedFourSharpFive] Tonal.base_table
  /\ Tonal.ChordType_get (addCustomChordTypes (gmap string object) Tonal.ChordType_add [suspendedFourSharpFive] Tonal.base_table) "sus4#5"
       !! "intervals"
     = Some (VArr ["1P"; "4P"; "5A"]).
Proof.
  destruct (addCustomChordTypes_idempotent [suspendedFourSharpFive] Tonal.base_table)
    as [Htwice _].
  split; [exact Htwice | vm_compute; reflexivity].
Defined.

(** * Properties of the rest of the plugin *)

(** ** More of the custom chord types *)

Section RegistryMore.

Variable table : Type.
Variable ChordType_get : table -> string -> object.
Variable ChordType_add : option JSValue -> option JSValue -> option JSValue -> table -> table.

Implicit Types (t : table) (type : string) (extension : object).

(** X1.  An extension that brings no alias and no other field gives the base
    type back: nothing is added and nothing is lost. *)
Theorem extendChordType_nothing_to_add t type extension (baseAliases : list string) :
  not_found table ChordType_get t type = false ->
  ChordType_get t type !! "aliases" = Some (VArr baseAliases) ->
  extension_aliases extension = Some [] ->
  (forall field, field <> "aliases" -> extension !! field = None) ->
  extendChordType table ChordType_get t type extension = inr (ChordType_get t type).
Proof.
  intros Hfound Hbase Hext Hother.
  rewrite (extendChordType_found _ _ t type extension baseAliases [] Hfound Hbase Hext).
  f_equal. rewrite app_nil_r. apply map_eq. intros field.
  destruct (decide (field = "aliases")) as [->|Hne].
  - now rewrite lookup_insert_eq.
  - rewrite lookup_insert_ne by congruence.
    apply lookup_union_r. now apply Hother.
Qed.



(** X3.  Loading the module and calling [addCustomChordTypes], when the three
    base types exist: [ChordType.add] is called four times, in the order
    of the constant, for ["7#5"], ["M7"] and ["m9"] with the intervals
    and the name of the base type and the merged aliases, and last for
    the new chord type. *)
Theorem loadAndAdd_registrations t (aliases7s5 aliasesM7 aliasesm9 : list string) :
  not_found table ChordType_get t "7#5" = false ->
  not_found table ChordType_get t "M7" = false ->
  not_found table ChordType_get t "m9" = false ->
  ChordType_get t "7#5" !! "aliases" = Some (VArr aliases7s5) ->
  ChordType_get t "M7" !! "aliases" = Some (VArr aliasesM7) ->
  ChordType_get t "m9" !! "aliases" = Some (VArr aliasesm9) ->
  loadAndAdd table ChordType_get ChordType_add t
  = (None,
     ChordType_add (Some (VArr ["1P"; "4P"; "5A"])) (Some (VArr ["sus4#5"; "4(5+)"]))
       (Some (VStr "suspended four sharp five"))
       (ChordType_add (ChordType_get t "m9" !! "intervals")
          (Some (VArr (aliasesm9 ++ ["m7(9)"]))) (ChordType_get t "m9" !! "name")
          (ChordType_add (ChordType_get t "M7" !! "intervals")
             (Some (VArr (aliasesM7 ++ ["7M"]))) (ChordType_get t "M7" !! "name")
             (ChordType_add (ChordType_get t "7#5" !! "intervals")
                (Some (VArr (aliases7s5 ++ ["7(5+)"; "7(+5)"; "7+5"])))
                (ChordType_get t "7#5" !! "name") t)))).
Proof.
  intros F1 F2 F3 A1 A2 A3. unfold loadAndAdd, customChordTypes.
  rewrite (extendChordType_found _ _ t "7#5" _ aliases7s5 ["7(5+)"; "7(+5)"; "7+5"] F1 A1)
    by (unfold extension_aliases; now rewrite lookup_singleton_eq).
  rewrite (extendChordType_found _ _ t "M7" _ aliasesM7 ["7M"] F2 A2)
    by (unfold extension_aliases; now rewrite lookup_singleton_eq).
  rewrite (extendChordType_found _ _ t "m9" _ aliasesm9 ["m7(9)"] F3 A3)
    by (unfold extension_aliases; now rewrite lookup_singleton_eq).
  simpl. unfold addCustomChordTypes. simpl.
  rewrite !lookup_insert_eq.
  rewrite !lookup_insert_ne by discriminate.
  rewrite !(lookup_union_r {[ "aliases" := _ ]}) by (now apply lookup_singleton_ne).
  reflexivity.
Qed.

End RegistryMore.

(** ** The reading-mode post processor *)

Lemma startsWith_append (prefix s : string) : Str.startsWith (prefix +:+ s) prefix = true.
Proof.
  induction prefix as [|a prefix IH]; simpl; [now destruct s|].
  now rewrite Ascii.eqb_refl.
Qed.

(** A class that starts with ["language-chords"] leaves a non-empty
    [langClass]: the test [if (langClass)] holds for every class found. *)
Lemma found_class_truthy (cls : string) :
  Str.startsWith cls "language-chords" = true ->
  JS.truthy_string (Str.substring 9 cls) = true.
Proof.
  intros H.
  do 10 (destruct cls as [|? cls];
         [simpl in H; rewrite ?andb_false_r in H; discriminate|]).
  reflexivity.
Qed.

Lemma find_chords_class (before after : list string) (cls : string) :
  Forall (fun other => Str.startsWith other "language-chords" = false) before ->
  Str.startsWith cls "language-chords" = true ->
  List.find (fun cls => Str.startsWith cls "language-chords") (before ++ cls :: after)
  = Some cls.
Proof.
  intros Hbefore Hcls. induction Hbefore as [|other before Hother _ IH]; simpl.
  - now rewrite Hcls.
  - now rewrite Hother.
Qed.

Lemma langClassOf_truthy (classList : list string) (langClass : string) :
  langClassOf classList = Some langClass -> JS.truthy_string langClass = true.
Proof.
  unfold langClassOf.
  destruct (List.find _ classList) as [cls|] eqn:Hfind; [|discriminate].
  intros [= <-]. apply found_class_truthy.
  now apply find_some in Hfind as [_ Hfind].
Qed.

Lemma append_empty (s : string) : s +:+ "" = s.
Proof.
  induction s as [|a s IH]; [reflexivity|].
  change (String a (s +:+ "") = String a s). now rewrite IH.
Qed.

(** The second piece of a text split at dashes, when its first dash is
    followed by a dash-free text that ends the text or is followed by
    another dash. *)
Lemma second_piece (first second rest : string) :
  JS.includes "-" first = false ->
  JS.includes "-" second = false ->
  rest = "" \/ (exists more, rest = "-" +:+ more) ->
  exists pieces, JS.split "-" (first +:+ "-" +:+ second +:+ rest) = first :: second :: pieces.
Proof.
  intros Hfirst Hsecond Hrest.
  change (first +:+ "-" +:+ second +:+ rest) with (first +:+ String "-" (second +:+ rest)).
  rewrite split_first_piece by assumption.
  destruct Hrest as [->|[more ->]].
  - exists []. f_equal.
    rewrite append_empty. now apply split_free.
  - change (second +:+ "-" +:+ more) with (second +:+ String "-" more).
    rewrite split_first_piece by assumption. now eexists.
Qed.

Lemma langClassOf_found (before after : list string) (suffix : string) :
  Forall (fun cls => Str.startsWith cls "language-chords" = false) before ->
  langClassOf (before ++ ("language-chords" +:+ suffix) :: after)
  = Some ("chords" +:+ suffix).
Proof.
  intros Hbefore. unfold langClassOf.
  now rewrite (find_chords_class before after _ Hbefore (startsWith_append _ _)).
Qed.

Lemma resolve_default (settings : ChordSheetsSettings)
    (before after : list string) (suffix : string) :
  Forall (fun cls => Str.startsWith cls "language-chords" = false) before ->
  JS.includes "-" suffix = false ->
  instrumentOf settings
    <$> langClassOf (before ++ ("language-chords" +:+ suffix) :: after)
  = Some (defaultInstrument settings).
Proof.
  intros Hbefore Hsuffix.
  rewrite (langClassOf_found before after suffix Hbefore).
  change (Some (instrumentOf settings ("chords" +:+ suffix))
          = Some (defaultInstrument settings)).
  f_equal. unfold instrumentOf.
  rewrite split_free; [reflexivity | exact Hsuffix].
Qed.

Lemma resolve_named (settings : ChordSheetsSettings)
    (before after : list string) (suffix instrument rest : string) :
  Forall (fun cls => Str.startsWith cls "language-chords" = false) before ->
  JS.includes "-" suffix = false ->
  JS.includes "-" instrument = false ->
  rest = "" \/ (exists more, rest = "-" +:+ more) ->
  instrumentOf settings
    <$> langClassOf
          (before ++ ("language-chords" +:+ suffix +:+ "-" +:+ instrument +:+ rest) :: after)
  = Some instrument.
Proof.
  intros Hbefore Hsuffix Hinstrument Hrest.
  rewrite (langClassOf_found before after _ Hbefore).
  change (Some (instrumentOf settings
                  ("chords" +:+ suffix +:+ "-" +:+ instrument +:+ rest))
          = Some instrument).
  f_equal. unfold instrumentOf.
  destruct (second_piece ("chords" +:+ suffix) instrument rest Hsuffix Hinstrument Hrest)
    as [pieces Hpieces].
  change (("chords" +:+ suffix) +:+ "-" +:+ instrument +:+ rest)
    with ("chords" +:+ suffix +:+ "-" +:+ instrument +:+ rest) in Hpieces.
  now rewrite Hpieces.
Qed.

(** X4.  The instrument a code block names.  The class counts that is the
    first to start with ["language-chords"].  When nothing but dash-free
    text follows that prefix, the instrument is the default instrument.
    When a dash follows, the instrument is the text up to the next dash or
    to the end of the class, whatever it is: an empty text after the dash
    is taken as it is and not replaced by the default. *)
Theorem post_processor_instrument (settings : ChordSheetsSettings)
    (before after : list string) (suffix : string) :
  Forall (fun cls => Str.startsWith cls "language-chords" = false) before ->
  JS.includes "-" suffix = false ->
  instrumentOf settings
    <$> langClassOf (before ++ ("language-chords" +:+ suffix) :: after)
  = Some (defaultInstrument settings)
  /\ (forall instrument rest : string,
        JS.includes "-" instrument = false ->
        rest = "" \/ (exists more, rest = "-" +:+ more) ->
        instrumentOf settings
          <$> langClassOf
                (before ++ ("language-chords" +:+ suffix +:+ "-" +:+ instrument +:+ rest)
                   :: after)
        = Some instrument).
Proof.
  intros Hbefore Hsuffix. split.
  - now apply resolve_default.
  - intros instrument rest Hinstrument Hrest. now apply resolve_named.
Qed.

Section PostProcessorFacts.

Variable Element : Type.

Implicit Types (codeblock : CodeBlock Element) (codeblocks : list (CodeBlock Element)).

Lemma postProcessor_loop settings codeblocks (children : list (ChordBlockView Element)) :
  fold_left
    (fun children codeblock =>
       match langClassOf (classList codeblock) with
       | Some langClass =>
           if JS.truthy_string langClass
           then children ++ [newChordBlockView settings codeblock langClass]
           else children
       | None => children
       end)
    codeblocks children
  = children ++ omap (child_of Element settings) codeblocks.
Proof.
  revert children. induction codeblocks as [|codeblock codeblocks IH]; intros children; simpl.
  - now rewrite app_nil_r.
  - rewrite IH. unfold child_of at 2.
    destruct (langClassOf (classList codeblock)) as [langClass|] eqn:Hclass; simpl.
    + rewrite (langClassOf_truthy _ _ Hclass). now rewrite <- app_assoc.
    + reflexivity.
Qed.

(** X5.  The children the post processor adds: one for each selected code
    block that has a class starting with ["language-chords"], in the order
    of the code blocks, each on the parent of its code block; a code block
    without such a class gets none. *)
Theorem post_processor_children (settings : ChordSheetsSettings) codeblocks :
  view_container <$> postProcessor settings codeblocks
  = parentElement
      <$> List.filter
            (fun codeblock =>
               existsb (fun cls => Str.startsWith cls "language-chords") (classList codeblock))
            codeblocks.
Proof.
  unfold postProcessor. rewrite postProcessor_loop, app_nil_l.
  induction codeblocks as [|codeblock codeblocks IH]; [reflexivity|].
  csimpl. unfold child_of at 1. unfold langClassOf at 1.
  destruct (List.find _ (classList codeblock)) as [cls|] eqn:Hfind; csimpl.
  - apply find_some in Hfind as [Hin Hcls].
    assert (Hex : existsb (fun cls => Str.startsWith cls "language-chords")
                    (classList codeblock) = true)
      by (apply existsb_exists; now exists cls).
    rewrite Hex. csimpl. f_equal. exact IH.
  - assert (Hex : existsb (fun cls => Str.startsWith cls "language-chords")
                    (classList codeblock) = false).
    { apply not_true_is_false. intros Hex. apply existsb_exists in Hex as (cls & Hin & Hcls).
      now rewrite (find_none _ _ Hfind cls Hin) in Hcls. }
    rewrite Hex. exact IH.
Qed.

End PostProcessorFacts.

(** ** [changeInstrument]: what [/\w+\S+/] matches *)

Section RegexFacts.

Import Regex.

Implicit Types (s fence token rest replacement : ustring) (u : N).

(** A word code unit is no white space. *)
Lemma word_non_space u : is_word u = true -> non_space u = true.
Proof.
  unfold is_word, non_space, is_space. intros H.
  rewrite !orb_true_iff, !andb_true_iff, !N.leb_le, N.eqb_eq in H.
  apply negb_true_iff.
  rewrite !orb_false_iff, !andb_false_iff, !N.leb_gt, !N.eqb_neq. lia.
Qed.

Lemma run_drop (class : N -> bool) s (j : nat) :
  j <= run class s -> run class (drop j s) = run class s - j.
Proof.
  revert s. induction j as [|j IH]; intros s Hj.
  - rewrite drop_0. lia.
  - destruct s as [|u s]; simpl in *; [lia|].
    destruct (class u); [|lia]. rewrite IH by lia. lia.
Qed.

Lemma run_word_le s : run is_word s <= run non_space s.
Proof.
  induction s as [|u s IH]; simpl; [lia|].
  destruct (is_word u) eqn:Hu; [|lia].
  rewrite (word_non_space u Hu). lia.
Qed.

Lemma match_non_space_run s :
  match_non_space s
  = if decide (0 < run non_space s) then Some (run non_space s) else None.
Proof.
  unfold match_non_space. destruct (run non_space s); case_decide; (reflexivity || lia).
Qed.

(** Backtracking, decided: with [k] word code units to start from, the
    match is the whole run of code units that are no white space, and it
    exists when the run is longer than [k] or [k] can give one back. *)
Lemma backtrack_spec s (k : nat) :
  k <= run is_word s ->
  backtrack k s
  = if decide (1 <= k /\ (k < run non_space s \/ 2 <= k))
    then Some (run non_space s) else None.
Proof.
  pose proof (run_word_le s) as Hle.
  induction k as [|k IH]; intros Hk; cbn [backtrack].
  - case_decide; [lia | reflexivity].
  - rewrite match_non_space_run, run_drop by lia.
    destruct (decide (0 < run non_space s - S k)) as [Hmore|Hnone].
    + rewrite decide_True by lia. f_equal. lia.
    + rewrite IH by lia. repeat case_decide; (reflexivity || lia).
Qed.

(** The match at the head of a string: it exists when a word code unit is
    followed by a code unit that is no white space, and it is the whole
    run of code units that are no white space. *)
Lemma match_here_spec s :
  match_here s = if token_start s then Some (run non_space s) else None.
Proof.
  unfold match_here. rewrite backtrack_spec by lia.
  destruct (token_start s) eqn:Hstart.
  - rewrite decide_True; [reflexivity|].
    destruct s as [|u [|v s]]; try discriminate Hstart.
    simpl in Hstart. apply andb_true_iff in Hstart as [Hu Hv].
    cbn [run]. rewrite Hu, (word_non_space u Hu), Hv.
    destruct (is_word v); lia.
  - rewrite decide_False; [reflexivity|]. intros [Hone Htwo].
    destruct s as [|u [|v s]]; cbn [run] in Hone, Htwo.
    + lia.
    + destruct (is_word u), (non_space u); lia.
    + simpl in Hstart.
      destruct (is_word u) eqn:Hu; [|lia].
      rewrite (word_non_space u Hu) in Htwo. simpl in Hstart. rewrite Hstart in Htwo.
      destruct (is_word v) eqn:Hv; [|lia].
      rewrite (word_non_space v Hv) in Hstart. discriminate.
Qed.

(** The search finds the leftmost place where a token starts. *)
Lemma search_first s (i : nat) :
  token_start (drop i s) = true ->
  (forall j, j < i -> token_start (drop j s) = false) ->
  search s = Some (i, run non_space (drop i s)).
Proof.
  revert s. induction i as [|i IH]; intros s Hstart Hleft.
  - rewrite drop_0 in *.
    destruct s; cbn [search]; rewrite match_here_spec, Hstart; reflexivity.
  - pose proof (Hleft 0 ltac:(lia)) as Hhead. rewrite drop_0 in Hhead.
    destruct s as [|u s]; [discriminate Hstart|].
    cbn [search]. rewrite match_here_spec, Hhead.
    rewrite (IH s); [reflexivity | exact Hstart |].
    intros j Hj. apply (Hleft (S j)). lia.
Qed.

Lemma search_none s : has_token_start s = false -> search s = None.
Proof.
  induction s as [|u s IH]; cbn [search has_token_start]; intros H.
  - now rewrite match_here_spec.
  - apply orb_false_iff in H as [Hhead Htail].
    rewrite match_here_spec, Hhead. now rewrite IH.
Qed.

Lemma expand_literal replacement before matched after :
  literal replacement = true -> expand replacement before matched after = replacement.
Proof.
  induction replacement as [|u rest IH]; simpl; [reflexivity|].
  intros H. apply andb_true_iff in H as [Hu Hrest].
  apply negb_true_iff in Hu. rewrite Hu. now rewrite IH.
Qed.

Lemma run_token token rest :
  forallb non_space token = true -> token_end rest = true ->
  run non_space (token ++ rest) = length token.
Proof.
  intros Htoken Hrest. induction token as [|u token IH]; simpl in *.
  - destruct rest as [|v rest]; [reflexivity|].
    simpl in *. unfold non_space. now rewrite Hrest.
  - apply andb_true_iff in Htoken as [-> Htoken]. now rewrite IH.
Qed.

Lemma no_token_in_fence fence s (j : nat) :
  no_word fence = true -> j < length fence -> token_start (drop j (fence ++ s)) = false.
Proof.
  revert j. induction fence as [|u fence IH]; intros j Hfence Hj; simpl in *; [lia|].
  apply andb_true_iff in Hfence as [Hu Hfence]. apply negb_true_iff in Hu.
  destruct j as [|j].
  - rewrite drop_0. simpl. destruct (fence ++ s); [reflexivity | now rewrite Hu].
  - simpl. apply IH; [assumption | lia].
Qed.

(** The token after a fence without word code units is what the pattern
    matches, and a replacement without dollar sign takes its place. *)
Lemma replace_token fence token rest replacement :
  no_word fence = true -> is_token token = true -> token_end rest = true ->
  literal replacement = true ->
  replace (fence ++ token ++ rest) replacement = fence ++ replacement ++ rest.
Proof.
  intros Hfence Htoken Hrest Hliteral.
  assert (Hdrop : drop (length fence) (fence ++ token ++ rest) = token ++ rest)
    by (now rewrite drop_app_length).
  assert (Hstart : token_start (drop (length fence) (fence ++ token ++ rest)) = true).
  { rewrite Hdrop. destruct token as [|u [|v token]]; try discriminate Htoken.
    simpl in *. apply andb_true_iff in Htoken as [-> Htoken].
    apply andb_true_iff in Htoken as [-> _]. reflexivity. }
  assert (Hrun : run non_space (token ++ rest) = length token).
  { apply run_token; [|exact Hrest].
    destruct token as [|u [|v token]]; try discriminate Htoken.
    unfold is_token in Htoken. apply andb_true_iff in Htoken as [Hu Htoken].
    change (forallb non_space (u :: v :: token))
      with (non_space u && forallb non_space (v :: token)).
    now rewrite (word_non_space u Hu), Htoken. }
  unfold replace.
  rewrite (search_first _ (length fence) Hstart)
    by (intros j Hj; now apply no_token_in_fence).
  rewrite Hdrop, Hrun. cbv zeta.
  rewrite expand_literal by exact Hliteral.
  rewrite take_app_length, <- drop_drop, drop_app_length, drop_app_length.
  reflexivity.
Qed.

End RegexFacts.

(** ** [changeInstrument]: the line it writes *)

Section ChangeInstrumentFacts.

Import Regex.

Implicit Types (languageSpecifier fence token rest : ustring)
  (selectedInstrument : option ustring) (lineAt : Z -> ustring) (blockStart : Z).

(** X6.  The first line of a block, made of a fence without word characters
    (back quotes, tildes, blanks), a token and, if anything, white space
    and more text: the change covers the whole line and writes the line
    with the token replaced by the new instrument definition; the fence
    and what follows the token stay as they are.  The new definition must
    hold no dollar sign, which [replace] would not copy literally. *)
Theorem changeInstrument_replaces_token
    languageSpecifier selectedInstrument lineAt blockStart fence token rest :
  lineAt blockStart = fence ++ token ++ rest ->
  no_word fence = true ->
  is_token token = true ->
  token_end rest = true ->
  literal (newInstrumentDef languageSpecifier selectedInstrument) = true ->
  changeInstrument languageSpecifier selectedInstrument (Some lineAt) blockStart
  = Some [ {| line_from := blockStart;
              line_to := blockStart + Z.of_nat (length (fence ++ token ++ rest));
              line_insert :=
                fence ++ newInstrumentDef languageSpecifier selectedInstrument ++ rest |} ].
Proof.
  intros Hline Hfence Htoken Hrest Hliteral.
  unfold changeInstrument. rewrite Hline.
  now rewrite replace_token.
Qed.

(** X7.  A line in which no word character is directly followed by a character
    that is no white space, such as a fence with a language of a single
    character: the pattern matches nothing, and the change writes the line
    back as it is, whatever instrument was selected. *)
Theorem changeInstrument_without_token
    languageSpecifier selectedInstrument lineAt blockStart :
  has_token_start (lineAt blockStart) = false ->
  changeInstrument languageSpecifier selectedInstrument (Some lineAt) blockStart
  = Some [ {| line_from := blockStart;
              line_to := blockStart + Z.of_nat (length (lineAt blockStart));
              line_insert := lineAt blockStart |} ].
Proof.
  intros Hnone. unfold changeInstrument, replace.
  now rewrite search_none.
Qed.


End ChangeInstrumentFacts.

(** ** The instrument, written and read *)

Lemma units_append (a b : string) : units (a +:+ b) = units a ++ units b.
Proof.
  induction a as [|c a IH]; [reflexivity|].
  change (N_of_ascii c :: units (a +:+ b) = N_of_ascii c :: units a ++ units b).
  now rewrite IH.
Qed.

(** X15.  The instrument survives the way from the editor to the reading
    mode.  For a language specifier that starts with ["chords"] and holds
    no dash, and an instrument without dash: the definition that
    [changeInstrument] writes is the specifier, a dash and the instrument,
    and the post processor reads this instrument back from the class
    ["language-"] followed by that definition.  With no instrument
    selected the definition is the specifier alone, and the post processor
    reads the default instrument. *)
Theorem instrument_round_trip (settings : ChordSheetsSettings)
    (suffix instrument : string) :
  JS.includes "-" suffix = false ->
  JS.includes "-" instrument = false ->
  let languageSpecifier := "chords" +:+ suffix in
  (newInstrumentDef (units languageSpecifier) (Some (units instrument))
   = units (languageSpecifier +:+ "-" +:+ instrument)
   /\ instrumentOf settings
        <$> langClassOf ["language-" +:+ languageSpecifier +:+ "-" +:+ instrument]
      = Some instrument)
  /\ (newInstrumentDef (units languageSpecifier) None = units languageSpecifier
      /\ instrumentOf settings <$> langClassOf ["language-" +:+ languageSpecifier]
         = Some (defaultInstrument settings)).
Proof.
  intros Hsuffix Hinstrument languageSpecifier. subst languageSpecifier.
  split; split.
  - unfold newInstrumentDef. now rewrite !units_append.
  - pose proof (resolve_named settings [] [] suffix instrument ""
                  ltac:(constructor) Hsuffix Hinstrument (or_introl eq_refl)) as Hread.
    rewrite append_empty in Hread. exact Hread.
  - reflexivity.
  - exact (resolve_default settings [] [] suffix ltac:(constructor) Hsuffix).
Qed.

(** ** Autoscroll *)

Section AutoscrollFacts.

Variable AutoscrollControl : Type.
Variable isRunning : AutoscrollControl -> bool.
Variable start stop : AutoscrollControl -> AutoscrollControl.
Variable newAutoscrollControl : nat -> Z -> AutoscrollControl.

Implicit Types (controls : gmap nat AutoscrollControl) (view : nat)
  (settings : ChordSheetsSettings) (existingEl : AutoscrollAction).

Lemma updateAutoscrollButton_button settings (hasChordBlocks : bool) view controls existingEl :
  fold_left applyActionOp
    (updateAutoscrollButton AutoscrollControl isRunning settings (Some hasChordBlocks) true
       view controls existingEl)
    existingEl
  = (if shouldShowButton settings hasChordBlocks
     then Some (Some (autoscrollIcon AutoscrollControl isRunning (controls !! view)))
     else None).
Proof.
  unfold updateAutoscrollButton.
  destruct (shouldShowButton settings hasChordBlocks).
  - destruct existingEl as [dataIcon|]; [|reflexivity].
    case_decide as Hicon; [now rewrite Hicon | reflexivity].
  - now destruct existingEl.
Qed.

(** X9.  The button after [updateAutoscrollButton], on a markdown view of an
    editor with the plugin: it is there exactly when it should be shown,
    and then it carries the icon of the present state of the autoscroll,
    whatever the button was before; a second call does nothing.  Without
    the plugin, or on another kind of view, the actions are not touched. *)
Theorem updateAutoscrollButton_result settings (hasChordBlocks : bool) view controls
    existingEl (plugin : option bool) (isMarkdownView : bool) :
  let button :=
    fold_left applyActionOp
      (updateAutoscrollButton AutoscrollControl isRunning settings (Some hasChordBlocks) true
         view controls existingEl)
      existingEl in
  button
  = (if shouldShowButton settings hasChordBlocks
     then Some (Some (autoscrollIcon AutoscrollControl isRunning (controls !! view)))
     else None)
  /\ updateAutoscrollButton AutoscrollControl isRunning settings (Some hasChordBlocks) true
       view controls button = []
  /\ updateAutoscrollButton AutoscrollControl isRunning settings None isMarkdownView
       view controls existingEl = []
  /\ updateAutoscrollButton AutoscrollControl isRunning settings plugin false
       view controls existingEl = [].
Proof.
  intros button. subst button.
  split; [apply updateAutoscrollButton_button|].
  unfold updateAutoscrollButton. split; [|split].
  - destruct (shouldShowButton settings hasChordBlocks).
    + destruct existingEl as [dataIcon|]; simpl.
      * case_decide as Hicon; simpl.
        -- now rewrite decide_True.
        -- now rewrite decide_True.
      * now rewrite decide_True.
    + now destruct existingEl.
  - reflexivity.
  - now destruct plugin.
Qed.

Lemma startAutoscroll_lookup settings view controls :
  startAutoscroll AutoscrollControl start newAutoscrollControl settings view controls !! view
  = Some (start (default (newAutoscrollControl view (autoscrollDefaultSpeed settings))
                   (controls !! view))).
Proof. unfold startAutoscroll. apply lookup_insert_eq. Qed.

Lemma toggle_controls settings (plugin : option bool) view controls existingEl :
  (toggleAutoscroll AutoscrollControl isRunning start stop newAutoscrollControl
     settings plugin view controls existingEl).1
  = <[view :=
        match controls !! view with
        | Some control => if isRunning control then stop control else start control
        | None => start (newAutoscrollControl view (autoscrollDefaultSpeed settings))
        end]> controls.
Proof.
  unfold toggleAutoscroll, startAutoscroll. simpl.
  destruct (controls !! view) as [control|]; simpl; [|reflexivity].
  now destruct (isRunning control).
Qed.

(** X10.  [toggleAutoscroll], for a control whose [start] leaves it running and
    whose [stop] leaves it not running: the autoscroll of the view runs
    afterwards exactly if it did not run before; the control of the view
    is the one it had, started or stopped, and a new one only if it had
    none; the controls of the other views are the same; and the button,
    where it is shown, carries the icon of the new state. *)
Theorem toggleAutoscroll_flips settings (hasChordBlocks : bool) view controls existingEl :
  (forall control, isRunning (start control) = true) ->
  (forall control, isRunning (stop control) = false) ->
  let toggled :=
    toggleAutoscroll AutoscrollControl isRunning start stop newAutoscrollControl
      settings (Some hasChordBlocks) view controls existingEl in
  running AutoscrollControl isRunning (toggled.1 !! view)
  = negb (running AutoscrollControl isRunning (controls !! view))
  /\ (forall control, controls !! view = Some control ->
        toggled.1 !! view = Some (if isRunning control then stop control else start control))
  /\ (controls !! view = None ->
        toggled.1 !! view
        = Some (start (newAutoscrollControl view (autoscrollDefaultSpeed settings))))
  /\ (forall other, other <> view -> toggled.1 !! other = controls !! other)
  /\ (shouldShowButton settings hasChordBlocks = true ->
        fold_left applyActionOp toggled.2 existingEl
        = Some (Some (if running AutoscrollControl isRunning (controls !! view)
                      then "play-circle" else "pause-circle"))).
Proof.
  intros Hstart Hstop toggled.
  assert (Hcontrols : toggled.1
    = <[view :=
          match controls !! view with
          | Some control => if isRunning control then stop control else start control
          | None => start (newAutoscrollControl view (autoscrollDefaultSpeed settings))
          end]> controls) by apply toggle_controls.
  assert (Hflip : running AutoscrollControl isRunning (toggled.1 !! view)
                  = negb (running AutoscrollControl isRunning (controls !! view))).
  { rewrite Hcontrols, lookup_insert_eq.
    destruct (controls !! view) as [control|]; simpl; [|apply Hstart].
    destruct (isRunning control) eqn:Hrun; simpl; [apply Hstop | apply Hstart]. }
  split; [exact Hflip|]. split; [|split; [|split]].
  - intros control Hview. now rewrite Hcontrols, lookup_insert_eq, Hview.
  - intros Hview. now rewrite Hcontrols, lookup_insert_eq, Hview.
  - intros other Hother. rewrite Hcontrols. now apply lookup_insert_ne.
  - intros Hshow.
    pose proof (updateAutoscrollButton_button settings hasChordBlocks view toggled.1 existingEl)
      as Hbutton.
    change (toggled.2)
      with (updateAutoscrollButton AutoscrollControl isRunning settings (Some hasChordBlocks)
              true view toggled.1 existingEl).
    rewrite Hbutton, Hshow. unfold autoscrollIcon. rewrite Hflip.
    now destruct (running AutoscrollControl isRunning (controls !! view)).
Qed.

End AutoscrollFacts.

Section StopFacts.

Variable AutoscrollControl : Type.
Variable isRunning : AutoscrollControl -> bool.
Variable stop : AutoscrollControl -> AutoscrollControl.

Implicit Types (controls : gmap nat AutoscrollControl) (view : nat)
  (leaves : list (nat * string)).

(** One step of the loop of [stopAllAutoscrolls]. *)
Lemma stop_leaf_lookup controls (leaf : nat * string) view :
  (if String.eqb leaf.2 "markdown" then
     match controls !! leaf.1 with
     | Some control => <[leaf.1 := stop control]> controls
     | None => controls
     end
   else controls) !! view
  = if decide (leaf = (view, "markdown")) then stop <$> controls !! view
    else controls !! view.
Proof.
  destruct leaf as [leafView leafType]. simpl.
  destruct (String.eqb_spec leafType "markdown") as [->|Htype].
  - destruct (decide (leafView = view)) as [->|Hview].
    + rewrite decide_True by reflexivity.
      destruct (controls !! view) as [control|] eqn:Hcontrol.
      * now rewrite lookup_insert_eq.
      * now rewrite Hcontrol.
    + rewrite decide_False by congruence.
      destruct (controls !! leafView); [now rewrite lookup_insert_ne | reflexivity].
  - now rewrite decide_False by congruence.
Qed.

Lemma stopAllAutoscrolls_cons leaves (leaf : nat * string) controls :
  stopAllAutoscrolls AutoscrollControl stop (leaf :: leaves) controls
  = stopAllAutoscrolls AutoscrollControl stop leaves
      (if String.eqb leaf.2 "markdown" then
         match controls !! leaf.1 with
         | Some control => <[leaf.1 := stop control]> controls
         | None => controls
         end
       else controls).
Proof. reflexivity. Qed.

Lemma stopAllAutoscrolls_other leaves controls view :
  (view, "markdown") ∉ leaves ->
  stopAllAutoscrolls AutoscrollControl stop leaves controls !! view = controls !! view.
Proof.
  revert controls. induction leaves as [|leaf leaves IH]; intros controls Hview.
  - reflexivity.
  - apply not_elem_of_cons in Hview as [Hleaf Hleaves].
    rewrite stopAllAutoscrolls_cons, IH by assumption.
    rewrite stop_leaf_lookup. now rewrite decide_False by congruence.
Qed.

Lemma stopAllAutoscrolls_domain leaves controls view :
  stopAllAutoscrolls AutoscrollControl stop leaves controls !! view = None
  <-> controls !! view = None.
Proof.
  revert controls. induction leaves as [|leaf leaves IH]; intros controls.
  - reflexivity.
  - rewrite stopAllAutoscrolls_cons, IH, stop_leaf_lookup.
    case_decide; [|reflexivity]. apply fmap_None.
Qed.

Lemma stopAllAutoscrolls_stays_stopped leaves controls view :
  (forall control, isRunning (stop control) = false) ->
  running AutoscrollControl isRunning (controls !! view) = false ->
  running AutoscrollControl isRunning
    (stopAllAutoscrolls AutoscrollControl stop leaves controls !! view) = false.
Proof.
  intros Hstop. revert controls.
  induction leaves as [|leaf leaves IH]; intros controls Hview; [exact Hview|].
  rewrite stopAllAutoscrolls_cons. apply IH.
  rewrite stop_leaf_lookup. case_decide; [|exact Hview].
  destruct (controls !! view); simpl; [apply Hstop | reflexivity].
Qed.

Lemma stopAllAutoscrolls_stopped leaves controls view :
  (forall control, isRunning (stop control) = false) ->
  (view, "markdown") ∈ leaves ->
  running AutoscrollControl isRunning
    (stopAllAutoscrolls AutoscrollControl stop leaves controls !! view) = false.
Proof.
  intros Hstop. revert controls.
  induction leaves as [|leaf leaves IH]; intros controls Hview.
  - now apply elem_of_nil in Hview.
  - rewrite stopAllAutoscrolls_cons.
    apply elem_of_cons in Hview as [<-|Hview]; [|now apply IH].
    apply stopAllAutoscrolls_stays_stopped; [exact Hstop|].
    rewrite stop_leaf_lookup, decide_True by reflexivity.
    destruct (controls !! view); simpl; [apply Hstop | reflexivity].
Qed.

(** X11.  [stopAllAutoscrolls], for a control whose [stop] leaves it not
    running: afterwards no markdown leaf has a running autoscroll; the
    controls of views that are on no markdown leaf are the same; and the
    views that have a control are the same as before, none is given one. *)
Theorem stopAllAutoscrolls_stops_markdown leaves controls :
  (forall control, isRunning (stop control) = false) ->
  let stopped := stopAllAutoscrolls AutoscrollControl stop leaves controls in
  (forall view, (view, "markdown") ∈ leaves ->
     running AutoscrollControl isRunning (stopped !! view) = false)
  /\ (forall view, (view, "markdown") ∉ leaves -> stopped !! view = controls !! view)
  /\ (forall view, stopped !! view = None <-> controls !! view = None).
Proof.
  intros Hstop stopped. subst stopped. split; [|split].
  - intros view Hview. now apply stopAllAutoscrolls_stopped.
  - intros view Hview. now apply stopAllAutoscrolls_other.
  - intros view. apply stopAllAutoscrolls_domain.
Qed.

(** X12.  [adjustScrollSpeedCommand]: the command is available exactly when
    there is an active markdown view whose autoscroll is running, in
    checking mode as when it is executed; a speed method is called only
    when it is executed and available.  After [stopAllAutoscrolls] it is
    not available on any markdown leaf. *)
Theorem adjustScrollSpeedCommand_while_running
    (action : SpeedAction) (checking : bool) (view : option nat) controls leaves :
  let command :=
    adjustScrollSpeedCommand AutoscrollControl isRunning action checking view controls in
  command.1
  = match view with
    | Some active => running AutoscrollControl isRunning (controls !! active)
    | None => false
    end
  /\ command.2
     = (if command.1 && negb checking
        then (fun active => (active, action)) <$> view
        else None)
  /\ ((forall control, isRunning (stop control) = false) ->
      forall active, (active, "markdown") ∈ leaves ->
        adjustScrollSpeedCommand AutoscrollControl isRunning action checking (Some active)
          (stopAllAutoscrolls AutoscrollControl stop leaves controls)
        = (false, None)).
Proof.
  intros command. subst command. unfold adjustScrollSpeedCommand. split; [|split].
  - destruct view as [active|]; [|reflexivity].
    destruct (controls !! active) as [control|]; [|reflexivity].
    simpl. now destruct (isRunning control).
  - destruct view as [active|]; [|reflexivity].
    destruct (controls !! active) as [control|]; [|reflexivity].
    destruct (isRunning control); [|reflexivity]. now destruct checking.
  - intros Hstop active Hactive.
    pose proof (stopAllAutoscrolls_stopped leaves controls active Hstop Hactive) as Hstopped.
    destruct (stopAllAutoscrolls AutoscrollControl stop leaves controls !! active)
      as [control|]; [|reflexivity].
    simpl in Hstopped. now rewrite Hstopped.
Qed.

End StopFacts.

(** ** The editor commands *)

(** X13.  [changeInstrumentCommand] and [transposeCommand]: both report the same
    availability, the same in checking mode as when executed; they are
    unavailable exactly when the editor has the plugin and the cursor is
    in no chord block; in checking mode nothing is called; and without the
    plugin they are reported available and call nothing. *)
Theorem editor_commands_availability (Block : Type) (block_from : Block -> Z)
    (chordPlugin : option (option Block)) (checking : bool)
    (instrument : option ustring) (direction : Direction) :
  let change := changeInstrumentCommand Block block_from chordPlugin checking instrument in
  let transposing := transposeCommand Block chordPlugin checking direction in
  change.1 = transposing.1
  /\ change.1
     = (changeInstrumentCommand Block block_from chordPlugin (negb checking) instrument).1
  /\ (change.1 = false <-> chordPlugin = Some None)
  /\ (change.2 = None <-> (checking = true \/ chordPlugin = None \/ chordPlugin = Some None))
  /\ (transposing.2 = None
      <-> (checking = true \/ chordPlugin = None \/ chordPlugin = Some None)).
Proof.
  intros change transposing. subst change transposing.
  unfold changeInstrumentCommand, transposeCommand.
  destruct chordPlugin as [[block|]|]; destruct checking; simpl;
    repeat split; intros; try reflexivity; try discriminate; auto;
    repeat match goal with
           | H : _ \/ _ |- _ => destruct H
           end; discriminate.
Qed.

(** ** Settings *)

(** X14.  [loadSettings]: a stored property wins over the default of the same
    name, and a property that is not stored takes its default; without
    stored data the settings are the defaults; and loading what an earlier
    load produced gives the same settings again. *)
Theorem loadSettings_defaults (DEFAULT_SETTINGS : object) (data : option object) :
  (forall key,
     loadSettings DEFAULT_SETTINGS data !! key
     = match data ≫= (.!! key) with
       | Some stored => Some stored
       | None => DEFAULT_SETTINGS !! key
       end)
  /\ loadSettings DEFAULT_SETTINGS None = DEFAULT_SETTINGS
  /\ loadSettings DEFAULT_SETTINGS (Some (loadSettings DEFAULT_SETTINGS data))
     = loadSettings DEFAULT_SETTINGS data.
Proof.
  unfold loadSettings, Object_assign. simpl.
  rewrite (right_id_L ∅ (∪)). split; [|split].
  - intros key. destruct data as [stored|]; simpl; [|reflexivity].
    rewrite lookup_union. now destruct (stored !! key), (DEFAULT_SETTINGS !! key).
  - reflexivity.
  - destruct data as [stored|]; simpl.
    + now rewrite <- (assoc_L (∪)), (idemp_L (∪)).
    + apply (idemp_L (∪)).
Qed.

(** ** These properties at concrete inputs *)

Lemma extendChordType_nothing_to_add_witness :
  extendChordType (gmap string object) Tonal.ChordType_get Tonal.base_table "M7" ∅
  = inr (Tonal.ChordType_get Tonal.base_table "M7").
Proof.
  apply (extendChordType_nothing_to_add (gmap string object) Tonal.ChordType_get
           Tonal.base_table "M7" ∅ ["maj7"; "M7"]).
  - vm_compute; reflexivity.
  - vm_compute; reflexivity.
  - reflexivity.
  - intros field _. apply lookup_empty.
Defined.


Lemma loadAndAdd_registrations_witness :
  (loadAndAdd (gmap string object) Tonal.ChordType_get Tonal.ChordType_add Tonal.base_table).1
  = None
  /\ Tonal.ChordType_get
       (loadAndAdd (gmap string object) Tonal.ChordType_get Tonal.ChordType_add
          Tonal.base_table).2 "7M" !! "name"
     = Some (VStr "major seventh").
Proof.
  rewrite (loadAndAdd_registrations (gmap string object) Tonal.ChordType_get
             Tonal.ChordType_add Tonal.base_table ["7#5"; "+7"] ["maj7"; "M7"] ["m9"; "-9"]);
    try (vm_compute; reflexivity).
  split; [reflexivity | vm_compute; reflexivity].
Defined.

Lemma post_processor_instrument_witness :
  instrumentOf Sample.settings <$> langClassOf ["hljs"; "language-chords"] = Some "guitar"
  /\ instrumentOf Sample.settings <$> langClassOf ["hljs"; "language-chords-ukulele"]
     = Some "ukulele"
  /\ instrumentOf Sample.settings <$> langClassOf ["hljs"; "language-chords-"] = Some "".
Proof.
  destruct (post_processor_instrument Sample.settings ["hljs"] [] ""
              ltac:(repeat constructor) eq_refl) as [Hdefault Hnamed].
  split; [exact Hdefault | split].
  - exact (Hnamed "ukulele" "" eq_refl (or_introl eq_refl)).
  - exact (Hnamed "" "" eq_refl (or_introl eq_refl)).
Defined.

Lemma changeInstrument_replaces_token_witness :
  changeInstrument (units "chords") (Some (units "ukulele"))
    (Some (fun _ => Sample.guitarLine)) 40
  = Some [ {| line_from := 40; line_to := 56;
              line_insert := units "```chords-ukulele" |} ].
Proof.
  exact (changeInstrument_replaces_token (units "chords") (Some (units "ukulele"))
           (fun _ => Sample.guitarLine) 40 (units "```") (units "chords-guitar") []
           eq_refl eq_refl eq_refl eq_refl eq_refl).
Defined.

Lemma changeInstrument_without_token_witness :
  changeInstrument (units "c") (Some (units "ukulele")) (Some (fun _ => Sample.shortLine)) 40
  = Some [ {| line_from := 40; line_to := 44; line_insert := units "```c" |} ].
Proof.
  exact (changeInstrument_without_token (units "c") (Some (units "ukulele"))
           (fun _ => Sample.shortLine) 40 eq_refl).
Defined.


Lemma toggleAutoscroll_flips_witness :
  (forall control, Sample.isRunning (Sample.start control) = true)
  /\ (forall control, Sample.isRunning (Sample.stop control) = false)
  /\ (toggleAutoscroll Sample.Control Sample.isRunning Sample.start Sample.stop
        Sample.newControl Sample.settings (Some true) 1%nat Sample.controls None).1
       !! 1%nat
     = Some (false, 5%Z)
  /\ fold_left applyActionOp
       (toggleAutoscroll Sample.Control Sample.isRunning Sample.start Sample.stop
          Sample.newControl Sample.settings (Some true) 1%nat Sample.controls None).2
       None
     = Some (Some "play-circle").
Proof.
  assert (Hstart : forall control, Sample.isRunning (Sample.start control) = true)
    by reflexivity.
  assert (Hstop : forall control, Sample.isRunning (Sample.stop control) = false)
    by reflexivity.
  destruct (toggleAutoscroll_flips Sample.Control Sample.isRunning Sample.start Sample.stop
              Sample.newControl Sample.settings true 1%nat Sample.controls None Hstart Hstop)
    as (_ & Hcontrol & _ & _ & Hbutton).
  split; [exact Hstart | split; [exact Hstop | split]].
  - apply (Hcontrol (true, 5%Z)). vm_compute; reflexivity.
  - rewrite Hbutton by reflexivity.
    replace (running Sample.Control Sample.isRunning (Sample.controls !! 1%nat)) with true
      by (vm_compute; reflexivity).
    reflexivity.
Defined.

Lemma stopAllAutoscrolls_stops_markdown_witness :
  (forall control, Sample.isRunning (Sample.stop control) = false)
  /\ running Sample.Control Sample.isRunning
       (stopAllAutoscrolls Sample.Control Sample.stop Sample.leaves Sample.controls !! 1%nat)
     = false
  /\ stopAllAutoscrolls Sample.Control Sample.stop Sample.leaves Sample.controls !! 7%nat
     = None.
Proof.
  assert (Hstop : forall control, Sample.isRunning (Sample.stop control) = false)
    by reflexivity.
  destruct (stopAllAutoscrolls_stops_markdown Sample.Control Sample.isRunning Sample.stop
              Sample.leaves Sample.controls Hstop) as (Hstopped & _ & Hdomain).
  split; [exact Hstop | split].
  - apply Hstopped. apply list_elem_of_here.
  - apply Hdomain. vm_compute; reflexivity.
Defined.

Lemma adjustScrollSpeedCommand_while_running_witness :
  (adjustScrollSpeedCommand Sample.Control Sample.isRunning increase false (Some 1%nat)
     Sample.controls).1 = true
  /\ adjustScrollSpeedCommand Sample.Control Sample.isRunning increase false (Some 1%nat)
       (stopAllAutoscrolls Sample.Control Sample.stop Sample.leaves Sample.controls)
     = (false, None).
Proof.
  destruct (adjustScrollSpeedCommand_while_running Sample.Control Sample.isRunning
              Sample.stop increase false (Some 1%nat) Sample.controls Sample.leaves)
    as (Havailable & _ & Hafter).
  split.
  - rewrite Havailable. vm_compute; reflexivity.
  - apply Hafter; [reflexivity | apply list_elem_of_here].
Defined.

Lemma instrument_round_trip_witness :
  newInstrumentDef (units "chords") (Some (units "ukulele")) = units "chords-ukulele"
  /\ instrumentOf Sample.settings <$> langClassOf ["language-chords-ukulele"]
     = Some "ukulele".
Proof.
  destruct (instrument_round_trip Sample.settings "" "ukulele" eq_refl eq_refl)
    as [[Hwritten Hread] _].
  split; [exact Hwritten | exact Hread].
Defined.
